(** * EnergyGrid Data Aggregator: a shallow embedding and its properties

    The development follows the three source modules:
    - [Client]      : client.js      (fetchDeviceData and its retry policy)
    - [RateLimiter] : rateLimiter.js (the queue-based rate gate)
    - [Aggregator]  : aggregator.js  (batching, reduction, orchestration)

    The JavaScript runtime pieces the code relies on (numbers, property
    access, parseFloat, toFixed) are embedded in [JS]. *)

From Stdlib Require Import ZArith NArith QArith List String Ascii Bool Lia Lqa.
From Stdlib Require Import DecimalString.
From Stdlib Require DecimalNat Permutation Sorted.
From Stdlib Require Import Floats.SpecFloat.
Import ListNotations.

Set Warnings "-register-all".

Local Open Scope list_scope.
Local Open Scope string_scope.
Local Open Scope Z_scope.

(* ================================================================== *)
(** * The JavaScript runtime model *)
(* ================================================================== *)

Module JS.

(** ** Numbers: IEEE 754 binary64, one NaN *)

Definition number : Set := spec_float.

Definition prec : Z := 53.
Definition emax : Z := 1024.

Definition NaN : number := S754_nan.
Definition Infinity : number := S754_infinity false.
Definition zero : number := S754_zero false.

Definition add : number -> number -> number := SFadd prec emax.
Definition sub : number -> number -> number := SFsub prec emax.
Definition mul : number -> number -> number := SFmul prec emax.
Definition div : number -> number -> number := SFdiv prec emax.

(** [isNaN] applied to a value that is already a number. *)
Definition isNaN (x : number) : bool :=
  match x with S754_nan => true | _ => false end.

(** The number nearest to an integer (exact below 2^53). *)
Definition of_Z (n : Z) : number := binary_normalize prec emax n 0 false.
Definition of_N (n : N) : number := of_Z (Z.of_N n).
Definition of_nat (n : nat) : number := of_Z (Z.of_nat n).

(** Bit-for-bit comparison of two numbers (not the [===] of the language:
    it tells the two zeros apart and equates NaN with itself). *)
Definition same (x y : number) : bool :=
  match x, y with
  | S754_zero a, S754_zero b => Bool.eqb a b
  | S754_infinity a, S754_infinity b => Bool.eqb a b
  | S754_nan, S754_nan => true
  | S754_finite a m e, S754_finite b m' e' =>
      Bool.eqb a b && Pos.eqb m m' && Z.eqb e e'
  | _, _ => false
  end.

(** The number nearest to [num / den] (round to nearest, ties to even). *)
Definition of_ratio (neg : bool) (num den : positive) : number :=
  div (S754_finite neg num 0) (S754_finite false den 0).

(** The number value of the decimal [digits * 10 ^ e10], correctly rounded.
    Decimal magnitudes beyond the binary64 range are cut short before any
    power of ten is built: they are infinite or zero whatever the digits. *)
Definition decimal_digits (n : N) : Z :=
  Z.of_nat (String.length (NilZero.string_of_uint (N.to_uint n))).

Definition of_decimal (neg : bool) (digits : N) (e10 : Z) : number :=
  match digits with
  | N0 => S754_zero neg
  | Npos p =>
      let magnitude := decimal_digits digits + e10 in
      if 400 <? magnitude then S754_infinity neg
      else if magnitude <? -400 then S754_zero neg
      else if 0 <=? e10
           then of_Z ((if neg then Z.opp else id) (Zpos p * 10 ^ e10))
           else of_ratio neg p (Z.to_pos (10 ^ (- e10)))
  end.

(** ** Strings: sequences of one-byte code units *)

Definition is_digit (c : ascii) : bool :=
  let n := nat_of_ascii c in (48 <=? n)%nat && (n <=? 57)%nat.

Definition digit_val (c : ascii) : N := N.of_nat (nat_of_ascii c - 48).

(** WhiteSpace and LineTerminator code units below 256:
    TAB, LF, VT, FF, CR, SP and NBSP. *)
Definition is_space (c : ascii) : bool :=
  let n := nat_of_ascii c in
  ((9 <=? n)%nat && (n <=? 13)%nat) || (n =? 32)%nat || (n =? 160)%nat.

Fixpoint trim_start (s : string) : string :=
  match s with
  | String c r => if is_space c then trim_start r else s
  | EmptyString => s
  end.

(** [scan_digits acc cnt s] reads the longest run of decimal digits at the
    head of [s]: the value read (continuing [acc]), the number of digits
    (continuing [cnt]) and what follows. *)
Fixpoint scan_digits (acc : N) (cnt : nat) (s : string) : N * nat * string :=
  match s with
  | String c r =>
      if is_digit c then scan_digits (acc * 10 + digit_val c)%N (S cnt) r
      else (acc, cnt, s)
  | EmptyString => (acc, cnt, s)
  end.

Definition starts_with (p s : string) : bool := String.prefix p s.

(** ExponentPart: [e] or [E], an optional sign, at least one digit.
    Without a complete exponent part the exponent is zero and the
    literal ends before the [e]. *)
Definition scan_exponent (s : string) : Z :=
  match s with
  | String c r =>
      if Ascii.eqb c "e" || Ascii.eqb c "E" then
        let '(neg, r') :=
          match r with
          | String "+" r' => (false, r')
          | String "-" r' => (true, r')
          | _ => (false, r)
          end in
        let '(v, n, _) := scan_digits 0 0 r' in
        match n with
        | O => 0
        | S _ => if neg then - Z.of_N v else Z.of_N v
        end
      else 0
  | EmptyString => 0
  end.

(** The longest prefix that is a StrUnsignedDecimalLiteral, as a number;
    [None] when there is no such prefix. *)
Definition parse_unsigned (neg : bool) (s : string) : option number :=
  if starts_with "Infinity" s then Some (S754_infinity neg)
  else
    let '(ip, ni, r1) := scan_digits 0 0 s in
    let '(m, nf, r2) :=
      match r1 with
      | String "." r => scan_digits ip 0 r
      | _ => (ip, O, r1)
      end in
    match (ni + nf)%nat with
    | O => None
    | S _ => Some (of_decimal neg m (scan_exponent r2 - Z.of_nat nf))
    end.

Definition parse_decimal (s : string) : option number :=
  match s with
  | String "+" r => parse_unsigned false r
  | String "-" r => parse_unsigned true r
  | _ => parse_unsigned false s
  end.

(** [parseFloat] on an argument that is already a string. *)
Definition parseFloat_string (s : string) : number :=
  match parse_decimal (trim_start s) with
  | Some x => x
  | None => NaN
  end.

(** ** Number to string (radix 10)

    The exact value of a positive finite number is [num / den]. *)
Definition exact_ratio (m : positive) (e : Z) : Z * Z :=
  if 0 <=? e then (Zpos m * 2 ^ e, 1) else (Zpos m, 2 ^ (- e)).

Definition string_of_Z (n : Z) : string :=
  NilZero.string_of_uint (N.to_uint (Z.to_N n)).

Fixpoint zeros (n : nat) : string :=
  match n with O => "" | S k => String "0" (zeros k) end.

Fixpoint take (n : nat) (s : string) : string :=
  match n, s with
  | S k, String c r => String c (take k r)
  | _, _ => ""
  end.

Fixpoint drop (n : nat) (s : string) : string :=
  match n, s with
  | S k, String _ r => drop k r
  | _, _ => s
  end.

(** The least [j >= 1] with [num * 10^j >= den], for [0 < num < den]. *)
Fixpoint leading_zeros (fuel : nat) (j num den : Z) : Z :=
  match fuel with
  | O => j
  | S fuel' =>
      if den <=? num * 10 then j else leading_zeros fuel' (j + 1) (num * 10) den
  end.

(** The integer [n] with [10^(n-1) <= num/den < 10^n]. *)
Definition decimal_point (num den : Z) : Z :=
  if den <=? num then Z.of_nat (String.length (string_of_Z (num / den)))
  else 1 - leading_zeros 400 1 num den.

(** The digits [s] (with [k] of them) and point position [n] of the
    shortest decimal [s * 10^(n-k)] whose number value is [x]; among the
    shortest, the one closest to [x], the even one on a tie. *)
Fixpoint shortest_digits (fuel : nat) (k : Z) (x : number) (num den n0 : Z)
  : Z * Z * Z :=
  let sc := n0 - k in
  let N' := if 0 <=? sc then num else num * 10 ^ (- sc) in
  let D' := if 0 <=? sc then den * 10 ^ sc else den in
  let lo := N' / D' in
  let r := N' mod D' in
  let round_trips s n := same (of_decimal false (Z.to_N s) (n - k)) x in
  let hi := if lo + 1 =? 10 ^ k then (10 ^ (k - 1), n0 + 1) else (lo + 1, n0) in
  let lo_ok := round_trips lo n0 in
  let hi_ok := round_trips (fst hi) (snd hi) in
  let pick_lo := (lo, k, n0) in
  let pick_hi := (fst hi, k, snd hi) in
  match fuel with
  | O => pick_lo
  | S fuel' =>
      match lo_ok, hi_ok with
      | true, true =>
          match 2 * r ?= D' with
          | Lt => pick_lo
          | Gt => pick_hi
          | Eq => if Z.even lo then pick_lo else pick_hi
          end
      | true, false => pick_lo
      | false, true => pick_hi
      | false, false => shortest_digits fuel' (k + 1) x num den n0
      end
  end.

Definition exponent_suffix (n : Z) : string :=
  let e := n - 1 in
  "e" ++ (if e <? 0 then "-" else "+") ++ string_of_Z (Z.abs e).

(** Number::toString of a positive finite number. *)
Definition positive_toString (m : positive) (e : Z) : string :=
  let '(num, den) := exact_ratio m e in
  let n0 := decimal_point num den in
  let '(s, k, n) := shortest_digits 17 1 (S754_finite false m e) num den n0 in
  let ds := string_of_Z s in
  if (k <=? n) && (n <=? 21) then ds ++ zeros (Z.to_nat (n - k))
  else if (0 <? n) && (n <=? 21)
       then take (Z.to_nat n) ds ++ "." ++ drop (Z.to_nat n) ds
  else if (-6 <? n) && (n <=? 0) then "0." ++ zeros (Z.to_nat (- n)) ++ ds
  else if k =? 1 then ds ++ exponent_suffix n
  else take 1 ds ++ "." ++ drop 1 ds ++ exponent_suffix n.

Definition toString (x : number) : string :=
  match x with
  | S754_nan => "NaN"
  | S754_zero _ => "0"
  | S754_infinity s => if s then "-Infinity" else "Infinity"
  | S754_finite s m e =>
      (if s then "-" else "") ++ positive_toString m e
  end.

(** ** Number.prototype.toFixed, for [0 <= fractionDigits <= 100]

    [n] is the integer nearest to [x * 10^f], the larger one on a tie. *)
Definition toFixed (x : number) (fractionDigits : nat) : string :=
  match x with
  | S754_nan | S754_infinity _ => toString x
  | S754_zero _ =>
      match fractionDigits with
      | O => "0"
      | S _ => "0." ++ zeros fractionDigits
      end
  | S754_finite s m e =>
      let sign := if s then "-" else "" in
      let '(num, den) := exact_ratio m e in
      if 10 ^ 21 * den <=? num then sign ++ positive_toString m e
      else
        let f := Z.of_nat fractionDigits in
        let n := (2 * num * 10 ^ f + den) / (2 * den) in
        let digits := string_of_Z n in
        match fractionDigits with
        | O => sign ++ digits
        | S _ =>
            let k := String.length digits in
            let padded := zeros (S fractionDigits - k)%nat ++ digits in
            let a := (String.length padded - fractionDigits)%nat in
            sign ++ take a padded ++ "." ++ drop a padded
        end
  end.

(** ** Values

    The values a JSON body can denote, together with [undefined], which
    reading an absent property yields. *)
Inductive value : Type :=
| Undefined
| Null
| Bool (b : bool)
| Number (x : number)
| Str (s : string)
| Array (elements : list value)
| Object (fields : list (string * value)).

(** ** Thrown errors

    Every error the program throws or rejects with is an [Error] object
    told apart by its message only; here each is named after the place
    that creates it, and [message] gives the text found in the source. *)
Inductive error : Type :=
| TypeError (msg : string)                    (* raised by the runtime *)
| ValidationError                             (* client.js, line 26 *)
| ParseError (detail : string)                (* client.js, line 65 *)
| RateLimitExceeded (status : Z)              (* client.js, line 79 *)
| AuthenticationError (status : Z)            (* client.js, line 86 *)
| RequestFailed (status : Z) (body : string)  (* client.js, line 99 *)
| NetworkError (msg : string).                (* client.js, line 121 *)

Definition string_of_int (n : Z) : string :=
  if n <? 0 then "-" ++ string_of_Z (- n) else string_of_Z n.

Definition message (e : error) : string :=
  match e with
  | TypeError msg => msg
  | ValidationError => "Batch size cannot exceed 10 devices"
  | ParseError detail => "Failed to parse response: " ++ detail
  | RateLimitExceeded status =>
      "Rate limit exceeded after retries. Status: " ++ string_of_int status
  | AuthenticationError status =>
      "Authentication failed. Status: " ++ string_of_int status
  | RequestFailed status body =>
      "Request failed. Status: " ++ string_of_int status
        ++ ", Response: " ++ body
  | NetworkError msg => msg
  end.

Inductive result (A : Type) : Type :=
| Ok (a : A)
| Throw (e : error).
Arguments Ok {A} a.
Arguments Throw {A} e.

Definition bind {A B : Type} (c : result A) (k : A -> result B) : result B :=
  match c with
  | Ok a => k a
  | Throw e => Throw e
  end.

Declare Scope js_scope.
Delimit Scope js_scope with js.
Notation "x <- c ;; k" := (bind c (fun x => k))
  (at level 61, c at next level, right associativity) : js_scope.

(** ** Operations on values *)

Definition truthy (v : value) : bool :=
  match v with
  | Undefined | Null => false
  | Bool b => b
  | Number (S754_zero _) | Number S754_nan => false
  | Number _ => true
  | Str s => negb (String.eqb s "")
  | Array _ | Object _ => true
  end.

Definition isArray (v : value) : bool :=
  match v with Array _ => true | _ => false end.

(** [v === s] for a string [s]. *)
Definition strict_eq_string (v : value) (s : string) : bool :=
  match v with Str t => String.eqb t s | _ => false end.

Fixpoint lookup (key : string) (fields : list (string * value)) : value :=
  match fields with
  | [] => Undefined
  | (k, v) :: rest => if String.eqb k key then v else lookup key rest
  end.

(** An array index written canonically: ["0"], ["17"], not ["017"]. *)
Definition index_of_key (key : string) : option nat :=
  let '(v, n, rest) := scan_digits 0 0 key in
  match n, rest with
  | S _, EmptyString =>
      if String.eqb (string_of_Z (Z.of_N v)) key then Some (N.to_nat v)
      else None
  | _, _ => None
  end.

Definition cannot_read (what key : string) : error :=
  TypeError ("Cannot read properties of " ++ what
             ++ " (reading '" ++ key ++ "')").

(** Reading property [key] of [v], for a [key] that no built-in prototype
    defines (the program reads [data], [status], [power] and [length]). *)
Definition get (v : value) (key : string) : result value :=
  match v with
  | Undefined => Throw (cannot_read "undefined" key)
  | Null => Throw (cannot_read "null" key)
  | Bool _ | Number _ => Ok Undefined
  | Str s =>
      if String.eqb key "length" then Ok (Number (of_nat (String.length s)))
      else match index_of_key key with
           | Some i =>
               match String.get i s with
               | Some c => Ok (Str (String c ""))
               | None => Ok Undefined
               end
           | None => Ok Undefined
           end
  | Array l =>
      if String.eqb key "length" then Ok (Number (of_nat (List.length l)))
      else match index_of_key key with
           | Some i => Ok (nth i l Undefined)
           | None => Ok Undefined
           end
  | Object fields => Ok (lookup key fields)
  end.

(** ToString of a value; an array joins its elements with commas, the
    elements [undefined] and [null] giving the empty string. *)
Fixpoint ToString (v : value) : string :=
  match v with
  | Undefined => "undefined"
  | Null => "null"
  | Bool b => if b then "true" else "false"
  | Number x => toString x
  | Str s => s
  | Array l =>
      let element v :=
        match v with
        | Undefined | Null => ""
        | _ => ToString v
        end in
      (fix join (l : list value) : string :=
         match l with
         | [] => ""
         | [v] => element v
         | v :: rest => element v ++ "," ++ join rest
         end) l
  | Object _ => "[object Object]"
  end.

(** The global [parseFloat]: its argument is converted to a string first. *)
Definition parseFloat (v : value) : number := parseFloat_string (ToString v).

End JS.

(* ================================================================== *)
(** * client.js: one batch request and its retry policy *)
(* ================================================================== *)

Module Client.
Import JS.

(** What one [http.request] comes to: the response has ended with a
    status code and a body, or the request object has emitted [error]. *)
Inductive reply : Type :=
| Responded (statusCode : Z) (data : string)
| Errored (msg : string).

(** The world outside the program: the server, which answers the [n]-th
    request (counted from 0) according to its payload, and the runtime's
    [JSON.parse], which yields a value or a syntax error message. *)
Record Network : Type := {
  transport : nat -> list string -> reply;
  JSON_parse : string -> value + string
}.

(** What the program does to the outside, in order. *)
Inductive event : Type :=
| Request (sn_list : list string)   (* a POST carrying this sn_list *)
| Timeout (ms : Z)                  (* a [setTimeout] delay that elapsed *)
| Released.                         (* the rate gate let a work item start *)

Record World : Type := {
  sent : nat;
  trace : list event
}.

Definition IO (A : Type) : Type := World -> result A * World.

Definition ret {A : Type} (a : A) : IO A := fun w => (Ok a, w).
Definition throw {A : Type} (e : error) : IO A := fun w => (Throw e, w).

Definition bind {A B : Type} (c : IO A) (k : A -> IO B) : IO B :=
  fun w =>
    match c w with
    | (Ok a, w') => k a w'
    | (Throw e, w') => (Throw e, w')
    end.

Definition emit (e : event) (w : World) : World :=
  {| sent := sent w; trace := (trace w ++ [e])%list |}.

(** Lines 29 to 127 up to the status test: sign, send, collect the body.
    The signature and timestamp headers are not part of what is observed
    here; the payload is. *)
Definition request (net : Network) (serialNumbers : list string) : IO reply :=
  fun w =>
    (Ok (transport net (sent w) serialNumbers),
     {| sent := S (sent w);
        trace := (trace w ++ [Request serialNumbers])%list |}).

Definition setTimeout (ms : Z) : IO unit :=
  fun w => (Ok tt, emit (Timeout ms) w).

Declare Scope io_scope.
Delimit Scope io_scope with io.
Notation "x <- c ;; k" := (bind c (fun x => k))
  (at level 61, c at next level, right associativity) : io_scope.
Notation "c ;; k" := (bind c (fun _ => k))
  (at level 61, right associativity) : io_scope.
Local Open Scope io_scope.

(** The body of [fetchDeviceData]; [retry] is the recursive call with one
    retry fewer, present when [retries > 0]. *)
Definition attempt (net : Network) (serialNumbers : list string)
    (retry : option (IO value)) : IO value :=
  if (10 <? List.length serialNumbers)%nat then throw ValidationError
  else
    r <- request net serialNumbers ;;
    match r with
    | Responded statusCode data =>
        if statusCode =? 200 then
          match JSON_parse net data with
          | inl parsed => ret parsed
          | inr msg => throw (ParseError msg)
          end
        else if statusCode =? 429 then
          match retry with
          | Some again => setTimeout 1500 ;; again
          | None => throw (RateLimitExceeded statusCode)
          end
        else if statusCode =? 401 then throw (AuthenticationError statusCode)
        else
          match retry with
          | Some again =>
              if 500 <=? statusCode then setTimeout 1000 ;; again
              else throw (RequestFailed statusCode data)
          | None => throw (RequestFailed statusCode data)
          end
    | Errored msg =>
        match retry with
        | Some again => setTimeout 1000 ;; again
        | None => throw (NetworkError msg)
        end
    end.

Fixpoint fetchDeviceData (net : Network) (serialNumbers : list string)
    (retries : nat) : IO value :=
  attempt net serialNumbers
    match retries with
    | O => None
    | S fewer => Some (fetchDeviceData net serialNumbers fewer)
    end.

(** The default value of the parameter [retries]. *)
Definition default_retries : nat := 3.

End Client.

(* ================================================================== *)
(** * rateLimiter.js: the queue-based rate gate *)
(* ================================================================== *)

Module RateLimiter.
Local Open Scope Q_scope.

(** Times and intervals are milliseconds, kept as exact rationals:
    [1000 / requestsPerSecond] and the subtractions of [processQueue] are
    taken without rounding, and the rate is finite and not zero (the
    language gives an infinite interval for a zero rate). *)

Definition Qlt_bool (a b : Q) : bool := negb (Qle_bool b a).

Section Gate.

(** A queue entry [{ fn, resolve, reject }]. *)
Variable Work : Type.

Record RateLimiter : Type := {
  requestsPerSecond : Q;
  minInterval : Q;
  lastRequestTime : Q;
  queue : list Work;
  processing : bool
}.

Definition constructor (requestsPerSecond : Q) : RateLimiter := {|
  requestsPerSecond := requestsPerSecond;
  minInterval := 1000 / requestsPerSecond;
  lastRequestTime := 0;
  queue := [];
  processing := false
|}.

(** Where the one activation of [processQueue] that holds the
    [processing] flag stands. *)
Inductive Activity : Type :=
| Idle                          (* no activation is in its loop *)
| Sleeping (now waitTime : Q)   (* suspended at line 43 *)
| Running (item : Work)         (* suspended at line 50, [fn] started *)
| Crashed.                      (* line 46 took an entry from an empty queue *)

(** The gate, its loop, the last clock reading taken, and the log of
    admissions: which entry started, at which reading of line 47. *)
Record State : Type := {
  gate : RateLimiter;
  activity : Activity;
  clock : Q;
  started : list (Q * Work)
}.

Definition initial (requestsPerSecond : Q) : State := {|
  gate := constructor requestsPerSecond;
  activity := Idle;
  clock := 0;
  started := []
|}.

Definition set_queue (q : list Work) (g : RateLimiter) : RateLimiter := {|
  requestsPerSecond := requestsPerSecond g;
  minInterval := minInterval g;
  lastRequestTime := lastRequestTime g;
  queue := q;
  processing := processing g
|}.

Definition set_processing (b : bool) (g : RateLimiter) : RateLimiter := {|
  requestsPerSecond := requestsPerSecond g;
  minInterval := minInterval g;
  lastRequestTime := lastRequestTime g;
  queue := queue g;
  processing := b
|}.

Definition set_lastRequestTime (t : Q) (g : RateLimiter) : RateLimiter := {|
  requestsPerSecond := requestsPerSecond g;
  minInterval := minInterval g;
  lastRequestTime := t;
  queue := queue g;
  processing := processing g
|}.

(** Lines 46 to 50: shift the queue, stamp the start, call [fn].
    [start] is what [Date.now()] reads on line 47. *)
Definition start_item (start : Q) (s : State) : State :=
  match queue (gate s) with
  | [] =>
      {| gate := gate s; activity := Crashed;
         clock := clock s; started := started s |}
  | item :: rest =>
      {| gate := set_lastRequestTime start (set_queue rest (gate s));
         activity := Running item;
         clock := start;
         started := (started s ++ [(start, item)])%list |}
  end.

(** The loop from its test on line 36 to the next [await], or to its
    exit on line 57. [now] is what [Date.now()] reads on line 37. *)
Definition loop (now start : Q) (s : State) : State :=
  match queue (gate s) with
  | [] =>
      {| gate := set_processing false (gate s); activity := Idle;
         clock := clock s; started := started s |}
  | _ :: _ =>
      let timeSinceLastRequest := now - lastRequestTime (gate s) in
      if Qlt_bool timeSinceLastRequest (minInterval (gate s)) then
        let waitTime := minInterval (gate s) - timeSinceLastRequest in
        {| gate := gate s; activity := Sleeping now waitTime;
           clock := now; started := started s |}
      else start_item start s
  end.

(** [processQueue] as [execute] calls it, up to its first [await]. *)
Definition processQueue (now start : Q) (s : State) : State :=
  match processing (gate s), queue (gate s) with
  | true, _ | _, [] => s
  | false, _ :: _ =>
      loop now start
        {| gate := set_processing true (gate s); activity := activity s;
           clock := clock s; started := started s |}
  end.

Definition execute (item : Work) (now start : Q) (s : State) : State :=
  processQueue now start
    {| gate := set_queue (queue (gate s) ++ [item])%list (gate s);
       activity := activity s; clock := clock s; started := started s |}.

(** What can happen to the gate. Each event brings the clock readings
    the code may take while handling it ([now] for line 37, [start] for
    line 47). *)
Inductive Event : Type :=
| Execute (item : Work) (now start : Q)   (* a caller calls [execute] *)
| TimerFired (start : Q)                  (* the [sleep] of line 43 is over *)
| Settled (now start : Q).                (* the promise of [fn()] settled *)

(** An event is possible when the loop waits for it, the clock has not
    run backwards, and a timer has not fired early. *)
Definition step (e : Event) (s : State) : option State :=
  match e with
  | Execute item now start =>
      if Qle_bool (clock s) now && Qle_bool now start
      then Some (execute item now start s) else None
  | TimerFired start =>
      match activity s with
      | Sleeping now waitTime =>
          if Qle_bool (now + waitTime) start && Qle_bool (clock s) start
          then Some (start_item start s) else None
      | _ => None
      end
  | Settled now start =>
      match activity s with
      | Running _ =>
          if Qle_bool (clock s) now && Qle_bool now start
          then Some (loop now start s) else None
      | _ => None
      end
  end.

Fixpoint run (events : list Event) (s : State) : option State :=
  match events with
  | [] => Some s
  | e :: rest =>
      match step e s with
      | Some s' => run rest s'
      | None => None
      end
  end.

(** Any two admissions, the earlier one first, are at least [d] apart. *)
Definition spaced (d : Q) (times : list Q) : Prop :=
  forall i j ti tj, (i < j)%nat ->
    nth_error times i = Some ti -> nth_error times j = Some tj ->
    ti + d <= tj.

(** What holds of every state the gate can reach: no admission is later
    than [lastRequestTime], the admissions are spaced, the clock is not
    behind [lastRequestTime], and the flag [processing] is up exactly
    while the loop is at work; a sleeping loop has an entry to wake up
    for and wakes no earlier than one interval after the last start. *)
Definition invariant (s : State) : Prop :=
  (forall t, In t (map fst (started s)) -> t <= lastRequestTime (gate s))
  /\ spaced (minInterval (gate s)) (map fst (started s))
  /\ lastRequestTime (gate s) <= clock s
  /\ match activity s with
     | Idle => processing (gate s) = false
     | Sleeping now waitTime =>
         processing (gate s) = true
         /\ queue (gate s) <> []
         /\ lastRequestTime (gate s) + minInterval (gate s) <= now + waitTime
     | Running _ => processing (gate s) = true
     | Crashed => False
     end.

End Gate.

Arguments Idle {Work}.
Arguments Sleeping {Work} now waitTime.
Arguments Running {Work} item.
Arguments Crashed {Work}.
Arguments Execute {Work} item now start.
Arguments TimerFired {Work} start.
Arguments Settled {Work} now start.
Arguments gate {Work} s.
Arguments activity {Work} s.
Arguments clock {Work} s.
Arguments started {Work} s.
Arguments requestsPerSecond {Work} r.
Arguments minInterval {Work} r.
Arguments lastRequestTime {Work} r.
Arguments queue {Work} r.
Arguments processing {Work} r.
Arguments step {Work} e s.
Arguments run {Work} events s.
Arguments start_item {Work} start s.
Arguments loop {Work} now start s.
Arguments processQueue {Work} now start s.
Arguments execute {Work} item now start s.
Arguments invariant {Work} s.
Arguments set_queue {Work} q g.
Arguments set_processing {Work} b g.
Arguments set_lastRequestTime {Work} t g.

End RateLimiter.

(* ================================================================== *)
(** * aggregator.js: batching, reduction and the run over all batches *)
(* ================================================================== *)

Module Aggregator.
Import JS.
Local Open Scope js_scope.

(** ** generateSerialNumbers *)

Definition string_of_nat (i : nat) : string :=
  NilZero.string_of_uint (Nat.to_uint i).

(** [s.padStart(targetLength, "0")]. *)
Definition padStart_zero (targetLength : nat) (s : string) : string :=
  zeros (targetLength - String.length s) ++ s.

Definition generateSerialNumbers (count : nat) : list string :=
  map (fun i => "SN-" ++ padStart_zero 3 (string_of_nat i)) (seq 0 count).

(** ** createBatches *)

(** [Array.prototype.slice]: a negative index counts from the end, and
    both ends are clamped to the array. *)
Definition relative_index (len k : Z) : Z :=
  if k <? 0 then Z.max (len + k) 0 else Z.min k len.

Definition slice {A : Type} (array : list A) (start stop : Z) : list A :=
  let len := Z.of_nat (List.length array) in
  let from := relative_index len start in
  let upto := relative_index len stop in
  firstn (Z.to_nat (upto - from)) (skipn (Z.to_nat from) array).

(** The [for] loop of [createBatches], from index [i] with the batches
    pushed so far. Each unit of fuel pays for one test of the loop
    condition; [None] means the fuel ran out before the loop ended. *)
Fixpoint createBatches_loop {A : Type} (fuel : nat) (array : list A)
    (batchSize i : Z) (batches : list (list A)) : option (list (list A)) :=
  match fuel with
  | O => None
  | S fuel' =>
      if i <? Z.of_nat (List.length array)
      then createBatches_loop fuel' array batchSize (i + batchSize)
             (batches ++ [slice array i (i + batchSize)])%list
      else Some batches
  end.

Definition createBatches_fuel {A : Type} (fuel : nat) (array : list A)
    (batchSize : Z) : option (list (list A)) :=
  createBatches_loop fuel array batchSize 0 [].

(** With a batch size of at least one the loop runs at most once per
    element, so one unit of fuel more than there are elements suffices. *)
Definition createBatches {A : Type} (array : list A) (batchSize : Z)
  : option (list (list A)) :=
  createBatches_fuel (S (List.length array)) array batchSize.

(** Every batch but the last holds exactly [k] elements; the last one
    holds between one and [k]. *)
Fixpoint full_but_last {A : Type} (k : nat) (batches : list (list A)) : Prop :=
  match batches with
  | [] => True
  | [c] => (1 <= List.length c <= k)%nat
  | c :: rest => List.length c = k /\ full_but_last k rest
  end.

(** ** aggregateResults *)

Record Summary : Type := {
  summary_totalDevices : N;
  summary_onlineDevices : N;
  summary_offlineDevices : N;
  totalPowerKW : string;
  averagePowerKW : string;
  successRate : string
}.

(** The object [aggregated]. The three counters are numbers that only
    ever grow by one from zero; they are kept as naturals (exact as long
    as fewer than 2^53 devices are seen). [summary] is [None] while the
    object still holds the empty [{}] it starts with. *)
Record Aggregated : Type := {
  totalDevices : N;
  onlineDevices : N;
  offlineDevices : N;
  totalPower : number;
  devices : list value;
  summary : option Summary
}.

Definition initial : Aggregated := {|
  totalDevices := 0;
  onlineDevices := 0;
  offlineDevices := 0;
  totalPower := zero;
  devices := [];
  summary := None
|}.

(** The body of the inner [forEach], lines 49 to 62. *)
Definition add_device (agg : Aggregated) (device : value) : result Aggregated :=
  let total := (totalDevices agg + 1)%N in
  let devs := (devices agg ++ [device])%list in
  status <- get device "status" ;;
  let online :=
    if strict_eq_string status "Online"
    then (onlineDevices agg + 1)%N else onlineDevices agg in
  let offline :=
    if strict_eq_string status "Online"
    then offlineDevices agg else (offlineDevices agg + 1)%N in
  power <- get device "power" ;;
  let powerValue := parseFloat power in
  let sum :=
    if negb (isNaN powerValue)
    then add (totalPower agg) powerValue else totalPower agg in
  Ok {| totalDevices := total;
        onlineDevices := online;
        offlineDevices := offline;
        totalPower := sum;
        devices := devs;
        summary := summary agg |}.

(** [forEach] with a callback that may throw. *)
Fixpoint forEach {A S : Type} (f : S -> A -> result S) (l : list A) (s : S)
  : result S :=
  match l with
  | [] => Ok s
  | a :: rest => s' <- f s a ;; forEach f rest s'
  end.

(** The body of the outer [forEach], lines 47 to 64. *)
Definition add_response (agg : Aggregated) (response : value)
  : result Aggregated :=
  if truthy response then
    data <- get response "data" ;;
    if truthy data && isArray data then
      match data with
      | Array records => forEach add_device records agg
      | _ => Ok agg
      end
    else Ok agg
  else Ok agg.

(** Lines 67 to 79. *)
Definition summarize (agg : Aggregated) : Summary := {|
  summary_totalDevices := totalDevices agg;
  summary_onlineDevices := onlineDevices agg;
  summary_offlineDevices := offlineDevices agg;
  totalPowerKW := toFixed (totalPower agg) 2;
  averagePowerKW :=
    toFixed (div (totalPower agg) (of_N (totalDevices agg))) 2;
  successRate :=
    toFixed (mul (div (of_N (onlineDevices agg)) (of_N (totalDevices agg)))
                 (of_Z 100)) 2 ++ "%"
|}.

Definition with_summary (agg : Aggregated) : Aggregated := {|
  totalDevices := totalDevices agg;
  onlineDevices := onlineDevices agg;
  offlineDevices := offlineDevices agg;
  totalPower := totalPower agg;
  devices := devices agg;
  summary := Some (summarize agg)
|}.

Definition aggregateResults (allResults : list value) : result Aggregated :=
  agg <- forEach add_response allResults initial ;;
  Ok (with_summary agg).

(** ** What the reduction is expected to compute

    The definitions below follow the description of the report, not the
    code: they are what the code is compared with. *)

(** An element of [allResults] is malformed when it is [null] or
    [undefined], has no [data], or has a [data] that is not an array. *)
Definition malformed (response : value) : bool :=
  match response with
  | Undefined | Null => true
  | _ =>
      match get response "data" with
      | Ok data => negb (isArray data)
      | Throw _ => true
      end
  end.

(** The device records of the well-formed elements, in order. *)
Definition records_of (response : value) : list value :=
  if malformed response then []
  else match get response "data" with
       | Ok (Array records) => records
       | _ => []
       end.

Definition records (allResults : list value) : list value :=
  flat_map records_of allResults.

Definition is_online (device : value) : bool :=
  match get device "status" with
  | Ok status => strict_eq_string status "Online"
  | Throw _ => false
  end.

(** The power reading of a record as a number; NaN when it has none. *)
Definition reading (device : value) : number :=
  match get device "power" with
  | Ok power => parseFloat power
  | Throw _ => NaN
  end.

Definition numeric (device : value) : bool := negb (isNaN (reading device)).

(** A record whose properties can be read at all. *)
Definition readable (device : value) : bool :=
  match device with
  | Undefined | Null => false
  | _ => true
  end.

(** ** aggregateAllDevices *)

Import Client.

(** An entry of [errors]. *)
Record Failure : Type := {
  batch : nat;
  serialNumbers : list string;
  error : string
}.

(** The object the run resolves with. *)
Record Run : Type := {
  aggregated : Aggregated;
  errors : list Failure;
  batchesProcessed : nat;
  batchesSuccessful : nat;
  batchesFailed : nat
}.

(** [await rateLimiter.execute(fn)] the way the loop uses it: one call
    at a time, each awaited before the next. The gate decides when [fn]
    starts (module [RateLimiter]) and settles as [fn] settles. *)
Definition rateLimiter_execute {A : Type} (fn : IO A) : IO A :=
  fun w => fn (emit Released w).

(** The expression [result.data.length] inside the message of line 122. *)
Definition received_count (result : value) : JS.result value :=
  data <- get result "data" ;; get data "length".

(** The loop of lines 107 to 134, from index [i] over the batches that
    remain, with the two arrays as they stand. *)
Fixpoint process_batches (net : Network) (batches : list (list string))
    (i : nat) (allResults : list value) (errors : list Failure) (w : World)
  : list value * list Failure * World :=
  match batches with
  | [] => (allResults, errors, w)
  | batch :: rest =>
      let batchNumber := (i + 1)%nat in
      let caught e :=
        {| batch := batchNumber; serialNumbers := batch; error := message e |} in
      match rateLimiter_execute (fetchDeviceData net batch default_retries) w with
      | (Ok result, w') =>
          let pushed := (allResults ++ [result])%list in
          match received_count result with
          | Ok _ => process_batches net rest (S i) pushed errors w'
          | Throw e =>
              process_batches net rest (S i) pushed (errors ++ [caught e])%list w'
          end
      | (Throw e, w') =>
          process_batches net rest (S i) allResults (errors ++ [caught e])%list w'
      end
  end.

(** The run over the batches it is given, lines 101 to 167. *)
Definition run_batches (net : Network) (batches : list (list string)) : IO Run :=
  fun w =>
    let '(allResults, errors, w') := process_batches net batches 0 [] [] w in
    match aggregateResults allResults with
    | Ok aggregated =>
        (Ok {| aggregated := aggregated;
               errors := errors;
               batchesProcessed := List.length batches;
               batchesSuccessful := List.length allResults;
               batchesFailed := List.length errors |}, w')
    | Throw e => (Throw e, w')
    end.

(** [None] would mean that [createBatches] does not return. *)
Definition aggregateAllDevices (net : Network) (w : World)
  : option (JS.result Run * World) :=
  let serialNumbers := generateSerialNumbers 500 in
  match createBatches serialNumbers 10 with
  | Some batches => Some (run_batches net batches w)
  | None => None
  end.

(** ** A server that answers one batch without a [data] field

    The seventh request is answered 200 with the body [{}], every other
    request 200 with an empty [data] array; [JSON.parse] is given on
    these two bodies. *)
Definition quote : string := String (ascii_of_nat 34) "".

Definition body_no_devices : string := "{" ++ quote ++ "data" ++ quote ++ ":[]}".

Definition parse_known_bodies (body : string) : value + string :=
  if String.eqb body "{}" then inl (Object [])
  else if String.eqb body body_no_devices then inl (Object [("data", Array [])])
  else inr "Unexpected token".

Definition seventh_without_data : Network := {|
  transport := fun n _ =>
    if Nat.eqb n 6 then Responded 200 "{}" else Responded 200 body_no_devices;
  JSON_parse := parse_known_bodies
|}.

Definition fresh_world : World := {| sent := 0; trace := [] |}.

End Aggregator.

(* ================================================================== *)
(** * Vocabulary for the properties below *)
(* ================================================================== *)

Module Policy.
Import JS Client.

(** What [fetchDeviceData] makes of one reply, lines 60 to 122: settle
    at once, or try again after a delay as long as retries are left and
    otherwise reject with the error given. *)
Inductive verdict : Type :=
| Resolve (parsed : value)
| Reject (e : error)
| Retry (ms : Z) (exhausted : error).

Definition classify (net : Network) (r : reply) : verdict :=
  match r with
  | Responded statusCode data =>
      if statusCode =? 200 then
        match JSON_parse net data with
        | inl parsed => Resolve parsed
        | inr msg => Reject (ParseError msg)
        end
      else if statusCode =? 429 then Retry 1500 (RateLimitExceeded statusCode)
      else if statusCode =? 401 then Reject (AuthenticationError statusCode)
      else if 500 <=? statusCode then Retry 1000 (RequestFailed statusCode data)
      else Reject (RequestFailed statusCode data)
  | Errored msg => Retry 1000 (NetworkError msg)
  end.

(** A reply after which the call tries again when it can: a network
    error, a 429, or a status of 500 and above. *)
Definition transient (r : reply) : bool :=
  match r with
  | Responded statusCode _ => (statusCode =? 429) || (500 <=? statusCode)
  | Errored _ => true
  end.

(** The delay taken before the retry that follows a transient reply. *)
Definition delay_after (r : reply) : Z :=
  match r with
  | Responded statusCode _ => if statusCode =? 429 then 1500 else 1000
  | Errored _ => 1000
  end.

(** What the call settles with when this reply is the last one. *)
Definition settle (net : Network) (r : reply) : result value :=
  match classify net r with
  | Resolve parsed => Ok parsed
  | Reject e => Throw e
  | Retry _ exhausted => Throw exhausted
  end.

(** The error a transient reply ends in when no retry is left. *)
Definition exhausted_error (r : reply) : error :=
  match r with
  | Responded statusCode data =>
      if statusCode =? 429 then RateLimitExceeded statusCode
      else RequestFailed statusCode data
  | Errored msg => NetworkError msg
  end.

(** The errors that are only raised once the retries are used up. *)
Definition after_retries (e : error) : bool :=
  match e with
  | RateLimitExceeded _ | NetworkError _ => true
  | RequestFailed statusCode _ => 500 <=? statusCode
  | _ => false
  end.

(** The events of one call for a batch: a request, and for each delay
    taken a timeout followed by the next request. *)
Fixpoint attempts (sn : list string) (delays : list Z) : list event :=
  match delays with
  | [] => [Request sn]
  | ms :: rest => Request sn :: Timeout ms :: attempts sn rest
  end.

(** The delays taken after the replies to requests [n], [n+1], ...,
    [n+k-1]. *)
Definition delays_from (net : Network) (sn : list string) (n k : nat) : list Z :=
  map (fun j => delay_after (transport net (n + j) sn)) (seq 0 k).

(** The world once the request for [sn] has been sent. *)
Definition after_request (sn : list string) (w : World) : World :=
  {| sent := S (sent w); trace := (trace w ++ [Request sn])%list |}.

Definition is_request (e : event) : bool :=
  match e with Request _ => true | _ => false end.

Definition is_released (e : event) : bool :=
  match e with Released => true | _ => false end.

End Policy.

Module GateSpec.
Import RateLimiter.
Local Open Scope Q_scope.

(** The work items handed to [execute], in the order of the calls. *)
Definition submitted {Work : Type} (events : list (Event Work)) : list Work :=
  flat_map (fun e => match e with
                     | Execute item _ _ => [item]
                     | _ => []
                     end) events.

(** The work items the gate has started, then those still queued. *)
Definition ledger {Work : Type} (s : State Work) : list Work :=
  (map snd (started s) ++ queue (gate s))%list.

Definition is_idle {Work : Type} (a : Activity Work) : bool :=
  match a with Idle => true | _ => false end.

(** The reading stamped by the latest start, 0 before the first one. *)
Definition latest_start {Work : Type} (s : State Work) : Q :=
  last (map fst (started s)) 0.

(** How the fields of a gate stand to one another: the flag is up
    exactly while the loop is at work, an idle gate has nothing queued,
    [lastRequestTime] is the latest start, and a sleeping loop sleeps
    for what is left of the interval since then. *)
Definition tidy {Work : Type} (s : State Work) : Prop :=
  processing (gate s) = negb (is_idle (activity s))
  /\ (activity s = Idle -> queue (gate s) = [])
  /\ lastRequestTime (gate s) = latest_start s
  /\ lastRequestTime (gate s) <= clock s
  /\ match activity s with
     | Sleeping now waitTime =>
         waitTime = minInterval (gate s) - (now - lastRequestTime (gate s))
         /\ now - lastRequestTime (gate s) < minInterval (gate s)
         /\ lastRequestTime (gate s) <= now
         /\ queue (gate s) <> []
     | Crashed => False
     | _ => True
     end.

End GateSpec.

Module RunSpec.
Import JS Client Aggregator.

(** Reading a serial number back: the index written after [SN-]. *)
Definition decode_serial (sn : string) : option nat :=
  match sn with
  | String "S" (String "N" (String "-" digits)) =>
      match scan_digits 0 0 digits with
      | (v, S _, EmptyString) => Some (N.to_nat v)
      | _ => None
      end
  | _ => None
  end.

(** Lines 171 to 181: the script exits with 0 when the run resolves and
    with 1 when it rejects; [None] would mean that it does not exit. *)
Definition exit_code (net : Network) (w : World) : option Z :=
  match aggregateAllDevices net w with
  | Some (Ok _, _) => Some 0
  | Some (Throw _, _) => Some 1
  | None => None
  end.

(** A [JSON.parse] whose payloads all let line 122 read [data.length]. *)
Definition payloads_have_data (net : Network) : Prop :=
  forall body parsed,
    JSON_parse net body = inl parsed ->
    exists count, received_count parsed = Ok count.

(** A [JSON.parse] whose payloads hold no [null] or [undefined] record. *)
Definition payloads_have_records (net : Network) : Prop :=
  forall body parsed,
    JSON_parse net body = inl parsed ->
    forallb readable (records_of parsed) = true.

(** A Failure that names one of the batches after batch [i]: its number
    points at the batch whose serial numbers it carries. *)
Definition names_batch (batches : list (list string)) (i : nat) (f : Failure)
  : Prop :=
  (i < batch f <= i + List.length batches)%nat
  /\ nth_error batches (batch f - S i) = Some (serialNumbers f).

Definition earlier (f g : Failure) : Prop := (batch f < batch g)%nat.

End RunSpec.

(* ================================================================== *)
(** * Properties of createBatches *)
(* ================================================================== *)

Section CreateBatches.
Import Aggregator.
Context {A : Type}.
Implicit Types (array : list A) (batches : list (list A)).

Lemma full_but_last_nonempty k batches :
  full_but_last k batches -> (1 <= k)%nat -> Forall (fun c => c <> []) batches.
Proof.
  induction batches as [|c [|d rest] IH]; cbn [full_but_last]; intros H Hk.
  - constructor.
  - constructor; [|constructor]. destruct c; cbn in H; [lia|discriminate].
  - destruct H as [Hc Hrest]. constructor; [|now apply IH].
    destruct c; cbn in Hc; [lia|discriminate].
Qed.

Lemma full_but_last_nth k batches :
  full_but_last k batches ->
  forall j c, nth_error batches j = Some c ->
    (1 <= List.length c <= k)%nat /\
    ((S j < List.length batches)%nat -> List.length c = k).
Proof.
  induction batches as [|c0 [|d rest] IH]; cbn [full_but_last]; intros H j c Hj.
  - destruct j; discriminate.
  - destruct j as [|[|j]]; cbn in Hj; try discriminate.
    injection Hj as <-. split; [exact H|cbn; lia].
  - destruct H as [Hc Hrest]. destruct j as [|j].
    + injection Hj as <-. split; [|tauto].
      pose proof (IH Hrest 0%nat d eq_refl) as [Hd _]. lia.
    + destruct (IH Hrest j c Hj) as [Hlen Hfull]. split; [exact Hlen|].
      intros Hlt. apply Hfull. cbn [List.length] in *. lia.
Qed.

(** Inside the array, the slice the loop takes is the next [batchSize]
    elements, or all that remain when fewer do. *)
Lemma slice_chunk array (m : nat) (k : Z) :
  1 <= k -> (m < List.length array)%nat ->
  slice array (Z.of_nat m) (Z.of_nat m + k)
  = firstn (Z.to_nat k) (skipn m array).
Proof.
  intros Hk Hm. unfold slice, relative_index.
  destruct (Z.ltb_spec (Z.of_nat m) 0) as [?|_]; [lia|].
  destruct (Z.ltb_spec (Z.of_nat m + k) 0) as [?|_]; [lia|].
  rewrite (Z.min_l (Z.of_nat m)) by lia. rewrite Nat2Z.id.
  destruct (Z.le_ge_cases (Z.of_nat m + k) (Z.of_nat (List.length array))) as [Hle|Hge].
  - rewrite Z.min_l by lia. f_equal. lia.
  - rewrite Z.min_r by lia.
    rewrite !firstn_all2; [reflexivity| |]; rewrite length_skipn; lia.
Qed.

Lemma ceil_div_step (n k : Z) :
  1 <= k -> (n + k + k - 1) / k = (n + k - 1) / k + 1.
Proof.
  intros Hk. replace (n + k + k - 1) with (n + k - 1 + 1 * k) by ring.
  apply Z.div_add. lia.
Qed.

(** The loop, started at index [m] with enough fuel, returns what it was
    given followed by the batches of the elements from [m] on. *)
Lemma createBatches_loop_spec (k : Z) (Hk : 1 <= k) array :
  forall fuel (m : nat) acc,
    (List.length (skipn m array) < fuel)%nat ->
    exists batches,
      createBatches_loop fuel array k (Z.of_nat m) acc = Some (acc ++ batches)%list
      /\ List.concat batches = skipn m array
      /\ full_but_last (Z.to_nat k) batches
      /\ Z.of_nat (List.length batches)
         = (Z.of_nat (List.length (skipn m array)) + k - 1) / k.
Proof.
  induction fuel as [|fuel IH]; intros m acc Hfuel; [lia|].
  cbn [createBatches_loop].
  destruct (Z.ltb_spec (Z.of_nat m) (Z.of_nat (List.length array))) as [Hlt|Hge].
  - assert (Hm : (m < List.length array)%nat) by lia.
    rewrite (slice_chunk array m k Hk Hm).
    set (rest := skipn m array) in *.
    set (k' := Z.to_nat k).
    assert (Hk' : (1 <= k')%nat) by (subst k'; lia).
    assert (Hrest : (1 <= List.length rest)%nat)
      by (subst rest; rewrite length_skipn; lia).
    replace (Z.of_nat m + k) with (Z.of_nat (m + k')) by (subst k'; lia).
    assert (Hskip : skipn (m + k') array = skipn k' rest)
      by (subst rest; rewrite skipn_skipn; f_equal; lia).
    destruct (IH (m + k')%nat (acc ++ [firstn k' rest])%list)
      as (bs & Hrun & Hcat & Hshape & Hcount).
    { rewrite Hskip, length_skipn. lia. }
    rewrite Hskip in Hcat, Hcount.
    exists (firstn k' rest :: bs). repeat split.
    + rewrite Hrun, <- app_assoc. reflexivity.
    + cbn [List.concat]. rewrite Hcat. apply firstn_skipn.
    + destruct bs as [|b bs'].
      * cbn [full_but_last]. rewrite length_firstn. lia.
      * cbn [full_but_last]. split; [|exact Hshape].
        rewrite length_firstn.
        assert (Hne : skipn k' rest <> []).
        { rewrite <- Hcat.
          pose proof (full_but_last_nonempty _ _ Hshape Hk') as Hall.
          inversion Hall as [|? ? Hb _]; subst.
          cbn [List.concat]. destruct b; [congruence|discriminate]. }
        assert (List.length (skipn k' rest) <> 0%nat)
          by (destruct (skipn k' rest); [congruence|cbn; lia]).
        rewrite length_skipn in *. lia.
    + cbn [List.length]. rewrite Nat2Z.inj_succ, Hcount, length_skipn.
      destruct (Nat.le_gt_cases (List.length rest) k') as [Hshort|Hlong].
      * replace (List.length rest - k')%nat with 0%nat by lia.
        assert (E0 : (Z.of_nat 0 + k - 1) / k = 0) by (apply Z.div_small; lia).
        assert (E1 : (Z.of_nat (List.length rest) + k - 1) / k = 1).
        { symmetry.
          apply Z.div_unique with (r := Z.of_nat (List.length rest) - 1);
            subst k'; lia. }
        rewrite E0, E1. reflexivity.
      * replace (Z.of_nat (List.length rest) + k - 1)
          with (Z.of_nat (List.length rest - k') + k + k - 1)
          by (subst k'; lia).
        rewrite ceil_div_step by lia. lia.
  - exists []. rewrite app_nil_r.
    assert (Hnil : skipn m array = []) by (apply skipn_all2; lia).
    rewrite Hnil. repeat split.
    cbn [List.length]. rewrite Z.div_small; lia.
Qed.

(** More fuel never changes an answer. *)
Lemma createBatches_loop_more_fuel array (k : Z) :
  forall fuel fuel' i acc batches,
    createBatches_loop fuel array k i acc = Some batches ->
    (fuel <= fuel')%nat ->
    createBatches_loop fuel' array k i acc = Some batches.
Proof.
  induction fuel as [|fuel IH]; intros fuel' i acc batches Hrun Hle;
    [discriminate|].
  destruct fuel' as [|fuel']; [lia|].
  cbn [createBatches_loop] in *.
  destruct (i <? Z.of_nat (List.length array)); [|exact Hrun].
  apply IH with (1 := Hrun). lia.
Qed.

(** With a batch size of zero or less the index never gets past a
    non-empty array. *)
Lemma createBatches_loop_stuck array (k : Z) :
  k <= 0 -> array <> [] ->
  forall fuel i acc, i <= 0 -> createBatches_loop fuel array k i acc = None.
Proof.
  intros Hk Hne. induction fuel as [|fuel IH]; intros i acc Hi; [reflexivity|].
  cbn [createBatches_loop].
  assert (0 < Z.of_nat (List.length array))
    by (destruct array; [congruence|cbn [List.length]; lia]).
  destruct (Z.ltb_spec i (Z.of_nat (List.length array))); [|lia].
  apply IH. lia.
Qed.

End CreateBatches.

Section CreateBatchesClaims.
Import Aggregator.

(** C5. For every list of n >= 0 elements and every chunk size k >= 1,
    [createBatches] returns ceil(n/k) chunks (the least count c with
    n <= c * k), every chunk holds exactly k elements except possibly
    the last, which holds between 1 and k, and the chunks concatenated
    in order give back the list, so the order of the input is kept. *)
Theorem createBatches_partition (A : Type) (array : list A) (k : Z) :
  1 <= k ->
  exists batches,
    createBatches array k = Some batches
    /\ Z.of_nat (List.length batches) = (Z.of_nat (List.length array) + k - 1) / k
    /\ Z.of_nat (List.length array) <= Z.of_nat (List.length batches) * k
         < Z.of_nat (List.length array) + k
    /\ (forall j c, nth_error batches j = Some c ->
          (1 <= List.length c <= Z.to_nat k)%nat
          /\ ((S j < List.length batches)%nat -> Z.of_nat (List.length c) = k))
    /\ List.concat batches = array.
Proof.
  intros Hk. unfold createBatches, createBatches_fuel.
  destruct (createBatches_loop_spec k Hk array (S (List.length array)) 0 [])
    as (batches & Hrun & Hcat & Hshape & Hcount).
  { cbn [skipn]. lia. }
  cbn [skipn app Z.of_nat] in *. exists batches.
  split; [exact Hrun|]. split; [exact Hcount|]. split.
  - rewrite Hcount.
    pose proof (Z.div_mod (Z.of_nat (List.length array) + k - 1) k).
    pose proof (Z.mod_pos_bound (Z.of_nat (List.length array) + k - 1) k).
    nia.
  - split; [|exact Hcat]. intros j c Hj.
    destruct (full_but_last_nth _ _ Hshape j c Hj) as [Hlen Hfull].
    split; [exact Hlen|]. intros Hlt. rewrite (Hfull Hlt). lia.
Qed.

Lemma createBatches_partition_witness :
  exists batches,
    createBatches [1; 2; 3; 4; 5; 6; 7] 3 = Some batches
    /\ batches = [[1; 2; 3]; [4; 5; 6]; [7]].
Proof.
  destruct (createBatches_partition Z [1; 2; 3; 4; 5; 6; 7] 3) as (b & Hb & _);
    [lia|].
  exists b. split; [exact Hb|].
  vm_compute in Hb. injection Hb as <-. reflexivity.
Defined.

(** C9. [createBatches] returns for every array when batchSize >= 1 (the
    index grows by batchSize on each turn, so one more unit of fuel than
    there are elements is enough, and more fuel gives the same batches);
    when batchSize <= 0 and the array is not empty, the index never gets
    past the array and the loop does not return, whatever the fuel. *)
Theorem createBatches_termination (A : Type) (array : list A) (k : Z) :
  (1 <= k ->
     exists batches, forall fuel, (List.length array < fuel)%nat ->
       createBatches_fuel fuel array k = Some batches)
  /\ (k <= 0 -> array <> [] ->
     forall fuel, createBatches_fuel fuel array k = None).
Proof.
  split.
  - intros Hk.
    destruct (createBatches_loop_spec k Hk array (S (List.length array)) 0 [])
      as (batches & Hrun & _).
    { cbn [skipn]. lia. }
    exists batches. intros fuel Hfuel. unfold createBatches_fuel.
    apply createBatches_loop_more_fuel with (1 := Hrun). lia.
  - intros Hk Hne fuel. unfold createBatches_fuel.
    apply createBatches_loop_stuck; [exact Hk|exact Hne|lia].
Qed.

Lemma createBatches_termination_witness :
  (exists batches, forall fuel, (2 < fuel)%nat ->
      createBatches_fuel fuel [10; 20] 1 = Some batches)
  /\ (forall fuel, createBatches_fuel fuel [10; 20] 0 = None).
Proof.
  destruct (createBatches_termination Z [10; 20] 1) as [Hret _].
  destruct (createBatches_termination Z [10; 20] 0) as [_ Hloop].
  split.
  - apply Hret. lia.
  - apply Hloop; [lia|discriminate].
Defined.

End CreateBatchesClaims.

(* ================================================================== *)
(** * Properties of aggregateResults *)
(* ================================================================== *)

Section AggregateResults.
Import JS Aggregator.
Local Open Scope js_scope.

Lemma forEach_app {A S : Type} (f : S -> A -> result S) (l1 l2 : list A) (s : S) :
  forEach f (l1 ++ l2)%list s = (s' <- forEach f l1 s ;; forEach f l2 s').
Proof.
  revert s. induction l1 as [|a l1 IH]; intros s; cbn [forEach app bind].
  - reflexivity.
  - destruct (f s a) as [s1|e]; cbn [bind]; [apply IH|reflexivity].
Qed.

(** Reading a property of anything but [null] and [undefined] yields a
    value. *)
Lemma get_readable (v : value) (key : string) :
  readable v = true -> exists x, get v key = Ok x.
Proof.
  destruct v; cbn [readable get]; intros H; try discriminate; eauto.
  - destruct (String.eqb key "length"); eauto.
    destruct (index_of_key key); eauto.
    destruct (String.get n s); eauto.
  - destruct (String.eqb key "length"); eauto.
    destruct (index_of_key key); eauto.
Qed.

Lemma get_unreadable (v : value) (key : string) :
  readable v = false -> exists e, get v key = Throw e.
Proof. destruct v; cbn [readable get]; intros H; try discriminate; eauto. Qed.

(** One record: what [add_device] does to each field. *)
Lemma add_device_spec (agg agg' : Aggregated) (device : value) :
  add_device agg device = Ok agg' ->
  totalDevices agg' = (totalDevices agg + 1)%N
  /\ onlineDevices agg'
     = (onlineDevices agg + (if is_online device then 1 else 0))%N
  /\ offlineDevices agg'
     = (offlineDevices agg + (if is_online device then 0 else 1))%N
  /\ totalPower agg'
     = (if numeric device then add (totalPower agg) (reading device)
        else totalPower agg)
  /\ devices agg' = (devices agg ++ [device])%list
  /\ summary agg' = summary agg.
Proof.
  unfold add_device, is_online, numeric, reading.
  destruct (get device "status") as [status|e]; cbn [bind]; [|discriminate].
  destruct (get device "power") as [power|e]; cbn [bind]; [|discriminate].
  intros H. injection H as <-. cbn.
  destruct (strict_eq_string status "Online"); repeat split; lia.
Qed.

Lemma add_device_returns (agg : Aggregated) (device : value) :
  readable device = true -> exists agg', add_device agg device = Ok agg'.
Proof.
  intros Hr. unfold add_device.
  destruct (get_readable device "status" Hr) as [status ->].
  destruct (get_readable device "power" Hr) as [power ->].
  cbn [bind]. eauto.
Qed.

Lemma add_device_throws (agg : Aggregated) (device : value) :
  readable device = false -> exists e, add_device agg device = Throw e.
Proof.
  intros Hr. unfold add_device.
  destruct (get_unreadable device "status" Hr) as [e ->]. cbn [bind]. eauto.
Qed.

(** A run of records: the counters count, the sum adds up the numeric
    readings in order, the records are kept in order. *)
Lemma forEach_add_device_spec (l : list value) :
  forall agg agg', forEach add_device l agg = Ok agg' ->
  totalDevices agg' = (totalDevices agg + N.of_nat (List.length l))%N
  /\ onlineDevices agg'
     = (onlineDevices agg + N.of_nat (List.length (filter is_online l)))%N
  /\ offlineDevices agg'
     = (offlineDevices agg
        + N.of_nat (List.length (filter (fun d => negb (is_online d)) l)))%N
  /\ totalPower agg'
     = fold_left add (map reading (filter numeric l)) (totalPower agg)
  /\ devices agg' = (devices agg ++ l)%list
  /\ summary agg' = summary agg.
Proof.
  induction l as [|d l IH]; intros agg agg' H; cbn [forEach] in H.
  - injection H as <-. cbn. rewrite app_nil_r. repeat split; lia.
  - destruct (add_device agg d) as [agg1|e] eqn:Hd; cbn [bind] in H;
      [|discriminate].
    destruct (add_device_spec _ _ _ Hd) as (T & On & Off & P & D & Sm).
    destruct (IH _ _ H) as (T' & On' & Off' & P' & D' & Sm').
    rewrite T', On', Off', P', D', Sm', T, On, Off, P, D, Sm.
    cbn [filter]. destruct (is_online d), (numeric d);
      cbn [negb List.length map fold_left];
      rewrite <- app_assoc; repeat split; lia.
Qed.

Lemma forEach_add_device_returns (l : list value) :
  forallb readable l = true ->
  forall agg, exists agg', forEach add_device l agg = Ok agg'.
Proof.
  induction l as [|d l IH]; cbn [forallb forEach]; intros H agg; eauto.
  apply andb_true_iff in H as [Hd Hl].
  destruct (add_device_returns agg d Hd) as [agg1 ->]. cbn [bind].
  apply IH, Hl.
Qed.

(** The guard of line 47 lets through exactly the elements that are not
    malformed, and hands their records to the inner loop. *)
Lemma add_response_records (agg : Aggregated) (response : value) :
  add_response agg response = forEach add_device (records_of response) agg.
Proof.
  unfold add_response, records_of, malformed.
  destruct response as [| |b|x|s|l|fields]; try reflexivity.
  - destruct b; reflexivity.
  - destruct x as [sg|sg| |sg m e]; reflexivity.
  - destruct s; reflexivity.
  - cbn [truthy get bind].
    destruct (lookup "data" fields) as [| |b|x|s|l|fs]; try reflexivity.
    + destruct b; reflexivity.
    + destruct x as [sg|sg| |sg m e]; reflexivity.
    + destruct s; reflexivity.
Qed.

Lemma forEach_add_response_records (allResults : list value) :
  forall agg,
    forEach add_response allResults agg
    = forEach add_device (records allResults) agg.
Proof.
  induction allResults as [|r rest IH]; intros agg; cbn [forEach records flat_map].
  - reflexivity.
  - fold (records rest). rewrite forEach_app, add_response_records.
    destruct (forEach add_device (records_of r) agg); cbn [bind];
      [apply IH|reflexivity].
Qed.

Lemma records_of_malformed (response : value) :
  malformed response = true -> records_of response = [].
Proof. unfold records_of. intros ->. reflexivity. Qed.

Lemma records_filter (allResults : list value) :
  records (filter (fun r => negb (malformed r)) allResults) = records allResults.
Proof.
  induction allResults as [|r rest IH]; cbn [filter records flat_map];
    [reflexivity|].
  fold (records rest). destruct (malformed r) eqn:Hm; cbn [negb].
  - rewrite (records_of_malformed r Hm). exact IH.
  - cbn [records flat_map]. fold (records (filter (fun r => negb (malformed r)) rest)).
    now rewrite IH.
Qed.

Lemma filter_split_length {A : Type} (f : A -> bool) (l : list A) :
  (List.length (filter f l) + List.length (filter (fun a => negb (f a)) l))%nat
  = List.length l.
Proof.
  induction l as [|a l IH]; cbn [filter List.length]; [reflexivity|].
  destruct (f a); cbn [negb List.length]; lia.
Qed.

(** The whole reduction, field by field. *)
Lemma aggregateResults_spec (allResults : list value) (agg : Aggregated) :
  aggregateResults allResults = Ok agg ->
  let rs := records allResults in
  totalDevices agg = N.of_nat (List.length rs)
  /\ onlineDevices agg = N.of_nat (List.length (filter is_online rs))
  /\ offlineDevices agg
     = N.of_nat (List.length (filter (fun d => negb (is_online d)) rs))
  /\ totalPower agg = fold_left add (map reading (filter numeric rs)) zero
  /\ devices agg = rs
  /\ exists before,
       summary agg = Some (summarize before)
       /\ totalDevices before = totalDevices agg
       /\ onlineDevices before = onlineDevices agg
       /\ offlineDevices before = offlineDevices agg
       /\ totalPower before = totalPower agg.
Proof.
  unfold aggregateResults. rewrite forEach_add_response_records.
  destruct (forEach add_device (records allResults) initial) as [agg0|e] eqn:H;
    cbn [bind]; [|discriminate].
  intros E. injection E as <-.
  destruct (forEach_add_device_spec _ _ _ H) as (T & On & Off & P & D & _).
  cbn [with_summary totalDevices onlineDevices offlineDevices totalPower
       devices summary initial] in *.
  rewrite T, On, Off, P, D. cbn [app].
  repeat split; try lia. exists agg0. rewrite T, On, Off, P. repeat split; lia.
Qed.

End AggregateResults.

Section AggregateResultsClaims.
Import JS Aggregator.

(** C1. When no device is counted over all the payloads, the division of
    lines 72 to 78 is 0/0: [aggregateResults] raises nothing and returns,
    but the report reads "NaN" for averagePowerKW and "NaN%" for
    successRate, where both are required to be zero. *)
Theorem aggregateResults_zero_devices (allResults : list value) (agg : Aggregated) :
  aggregateResults allResults = Ok agg ->
  totalDevices agg = 0%N ->
  exists report,
    summary agg = Some report
    /\ totalPowerKW report = "0.00"
    /\ averagePowerKW report = "NaN"
    /\ successRate report = "NaN%".
Proof.
  intros H Hzero.
  destruct (aggregateResults_spec _ _ H) as (T & On & _ & P & _ & before & Sm & T' & On' & _ & P').
  rewrite Hzero in T.
  assert (Hnil : records allResults = [])
    by (destruct (records allResults); [reflexivity|cbn in T; lia]).
  rewrite Hnil in *. cbn in On, P.
  exists (summarize before). split; [exact Sm|].
  unfold summarize. cbn [totalPowerKW averagePowerKW successRate].
  rewrite T', On', P', Hzero, On, P. repeat split.
Qed.

Lemma aggregateResults_zero_devices_witness :
  exists report,
    summary (with_summary initial) = Some report
    /\ totalPowerKW report = "0.00"
    /\ averagePowerKW report = "NaN"
    /\ successRate report = "NaN%".
Proof.
  apply (aggregateResults_zero_devices [] (with_summary initial));
    reflexivity.
Defined.

(** C7. In the report of [aggregateResults], totalDevices counts every
    record, onlineDevices and offlineDevices split all of them by
    status, and totalPower adds up, in order, the readings of the
    numeric records only: a record whose power reading is not numeric is
    counted but adds nothing to the power. On the payload
    [{data:[{status:Online,power:2.5 kW},{status:Offline,power:bad}]}]
    the report shows 2 devices, 1 online, 1 offline, totalPowerKW 2.50,
    averagePowerKW 1.25 and a success rate of 50.00 (written 50.00%). *)
Theorem aggregateResults_non_numeric_power (allResults : list value) (agg : Aggregated) :
  aggregateResults allResults = Ok agg ->
  (totalDevices agg = N.of_nat (List.length (records allResults))
   /\ (onlineDevices agg + offlineDevices agg)%N = totalDevices agg
   /\ onlineDevices agg
      = N.of_nat (List.length (filter is_online (records allResults)))
   /\ totalPower agg
      = fold_left add (map reading (filter numeric (records allResults))) zero)
  /\ (let payload :=
        Object [("data",
                 Array [Object [("status", Str "Online"); ("power", Str "2.5 kW")];
                        Object [("status", Str "Offline"); ("power", Str "bad")]])] in
      numeric (Object [("status", Str "Offline"); ("power", Str "bad")]) = false
      /\ exists result report,
           aggregateResults [payload] = Ok result
           /\ summary result = Some report
           /\ summary_totalDevices report = 2%N
           /\ summary_onlineDevices report = 1%N
           /\ summary_offlineDevices report = 1%N
           /\ totalPowerKW report = "2.50"
           /\ averagePowerKW report = "1.25"
           /\ successRate report = "50.00%").
Proof.
  intros H.
  destruct (aggregateResults_spec _ _ H) as (T & On & Off & P & _).
  split.
  - repeat split; try assumption.
    rewrite T, On, Off, <- Nat2N.inj_add. f_equal.
    apply filter_split_length.
  - cbv zeta. split; [reflexivity|]. do 2 eexists.
    split; [vm_compute; reflexivity|]. cbn [summary]. repeat split.
Qed.

Lemma aggregateResults_non_numeric_power_witness :
  let good := Object [("status", Str "Online"); ("power", Number (of_Z 3))] in
  let bad := Object [("status", Str "Standby"); ("power", Str "n/a")] in
  exists agg,
    aggregateResults [Object [("data", Array [good; bad])]] = Ok agg
    /\ totalDevices agg = 2%N /\ onlineDevices agg = 1%N
    /\ totalPower agg = of_Z 3.
Proof.
  intros good bad.
  destruct (aggregateResults [Object [("data", Array [good; bad])]])
    as [agg|e] eqn:H; [|vm_compute in H; discriminate].
  exists agg. split; [reflexivity|].
  destruct (aggregateResults_non_numeric_power _ _ H) as [(T & _ & On & P) _].
  rewrite T, On, P. vm_compute. repeat split.
Defined.




End AggregateResultsClaims.

(* ================================================================== *)
(** * Properties of fetchDeviceData *)
(* ================================================================== *)

Section FetchDeviceData.
Import JS Client.

Lemma fetchDeviceData_unfold (net : Network) (sn : list string) (retries : nat) :
  fetchDeviceData net sn retries
  = attempt net sn
      match retries with
      | O => None
      | S fewer => Some (fetchDeviceData net sn fewer)
      end.
Proof. destruct retries; reflexivity. Qed.

(** A batch within the size cap gets past line 25 and sends a request. *)
Lemma attempt_sends (net : Network) (sn : list string) (retry : option (IO value))
    (w : World) :
  (List.length sn <= 10)%nat ->
  attempt net sn retry w
  = (r <- request net sn ;;
     match r with
     | Responded statusCode data =>
         if statusCode =? 200 then
           match JSON_parse net data with
           | inl parsed => ret parsed
           | inr msg => throw (ParseError msg)
           end
         else if statusCode =? 429 then
           match retry with
           | Some again => setTimeout 1500 ;; again
           | None => throw (RateLimitExceeded statusCode)
           end
         else if statusCode =? 401 then throw (AuthenticationError statusCode)
         else
           match retry with
           | Some again =>
               if 500 <=? statusCode then setTimeout 1000 ;; again
               else throw (RequestFailed statusCode data)
           | None => throw (RequestFailed statusCode data)
           end
     | Errored msg =>
         match retry with
         | Some again => setTimeout 1000 ;; again
         | None => throw (NetworkError msg)
         end
     end)%io w.
Proof.
  intros Hlen. unfold attempt.
  destruct (Nat.ltb_spec 10 (List.length sn)); [lia|reflexivity].
Qed.

(** One attempt answered with 429. *)
Lemma attempt_429 (net : Network) (sn : list string) (retry : option (IO value))
    (w : World) (body : string) :
  (List.length sn <= 10)%nat ->
  transport net (sent w) sn = Responded 429 body ->
  attempt net sn retry w
  = match retry with
    | Some again =>
        again {| sent := S (sent w);
                 trace := ((trace w ++ [Request sn]) ++ [Timeout 1500])%list |}
    | None =>
        (Throw (RateLimitExceeded 429),
         {| sent := S (sent w); trace := (trace w ++ [Request sn])%list |})
    end.
Proof.
  intros Hlen Ht. rewrite attempt_sends by exact Hlen.
  unfold bind, request. rewrite Ht. cbn. destruct retry; reflexivity.
Qed.

(** Whatever the retry budget, a batch within the cap never fails the
    size check, and its first effect is a request. *)
Lemma fetchDeviceData_within_cap (net : Network) (sn : list string) :
  (List.length sn <= 10)%nat ->
  forall retries w,
    fst (fetchDeviceData net sn retries w) <> Throw ValidationError
    /\ exists more,
         trace (snd (fetchDeviceData net sn retries w))
         = (trace w ++ Request sn :: more)%list.
Proof.
  intros Hlen. induction retries as [|fewer IH]; intros w;
    rewrite fetchDeviceData_unfold, attempt_sends by exact Hlen;
    unfold bind, request, setTimeout, throw, ret, emit;
    cbn [sent trace];
    destruct (transport net (sent w) sn) as [statusCode data|msg].
  1, 3: destruct (statusCode =? 200);
        [destruct (JSON_parse net data)|
         destruct (statusCode =? 429);
         [|destruct (statusCode =? 401); [|try destruct (500 <=? statusCode)]]].
  all: cbn [fst snd trace];
       try (split; [discriminate|exists []; reflexivity]).
  all: match goal with
       | IH : forall w, _ |- context [fetchDeviceData _ _ _ ?w'] =>
           destruct (IH w') as [Hne [more Hmore]];
           split; [exact Hne|];
           rewrite Hmore; cbn [trace];
           repeat rewrite <- app_assoc; cbn [app]; eexists; reflexivity
       end.
Qed.

End FetchDeviceData.

Section FetchDeviceDataClaims.
Import JS Client.

(** C3. A call of [fetchDeviceData] with the default retry budget, for a
    batch that gets past the size check, against a server that answers
    every request with 429: the request is sent four times in all (the
    first attempt and exactly three retries), each retry comes after a
    delay of 1500 ms, and the call then rejects with the rate-limit
    error, whose message is the one of line 81. *)
Theorem fetchDeviceData_always_429 (net : Network) (sn : list string) (w : World) :
  (List.length sn <= 10)%nat ->
  (forall n, exists body, transport net n sn = Responded 429 body) ->
  fetchDeviceData net sn default_retries w
  = (Throw (RateLimitExceeded 429),
     {| sent := sent w + 4;
        trace := (trace w ++ [Request sn; Timeout 1500;
                              Request sn; Timeout 1500;
                              Request sn; Timeout 1500;
                              Request sn])%list |})
  /\ message (RateLimitExceeded 429)
     = "Rate limit exceeded after retries. Status: 429".
Proof.
  intros Hlen Hall. split; [|reflexivity].
  unfold default_retries.
  destruct (Hall (sent w)) as [b0 H0].
  destruct (Hall (S (sent w))) as [b1 H1].
  destruct (Hall (S (S (sent w)))) as [b2 H2].
  destruct (Hall (S (S (S (sent w))))) as [b3 H3].
  rewrite fetchDeviceData_unfold.
  erewrite attempt_429; [|exact Hlen|cbn [sent]; exact H0].
  rewrite fetchDeviceData_unfold.
  erewrite attempt_429; [|exact Hlen|cbn [sent]; exact H1].
  rewrite fetchDeviceData_unfold.
  erewrite attempt_429; [|exact Hlen|cbn [sent]; exact H2].
  rewrite fetchDeviceData_unfold.
  erewrite attempt_429; [|exact Hlen|cbn [sent]; exact H3].
  cbn [sent trace]. f_equal. f_equal; [lia|].
  repeat rewrite <- app_assoc. reflexivity.
Qed.

Lemma fetchDeviceData_always_429_witness :
  let net := {| transport := fun _ _ => Responded 429 "Too Many Requests";
                JSON_parse := fun _ => inr "Unexpected token" |} in
  fst (fetchDeviceData net ["SN-000"; "SN-001"] default_retries
         {| sent := 0; trace := [] |})
  = Throw (RateLimitExceeded 429).
Proof.
  intros net.
  destruct (fetchDeviceData_always_429 net ["SN-000"; "SN-001"]
              {| sent := 0; trace := [] |}) as [H _].
  - cbn. lia.
  - intros n. eexists. reflexivity.
  - rewrite H. reflexivity.
Defined.

(** C6. A call of [fetchDeviceData], for a batch that gets past the size
    check, whose request is answered with 401: whatever the retries
    left, the call rejects at once with the authentication error; one
    request was sent, no delay was taken and nothing was retried. *)
Theorem fetchDeviceData_401_no_retry (net : Network) (sn : list string)
    (retries : nat) (w : World) (body : string) :
  (List.length sn <= 10)%nat ->
  transport net (sent w) sn = Responded 401 body ->
  fetchDeviceData net sn retries w
  = (Throw (AuthenticationError 401),
     {| sent := S (sent w); trace := (trace w ++ [Request sn])%list |})
  /\ message (AuthenticationError 401) = "Authentication failed. Status: 401".
Proof.
  intros Hlen Ht. split; [|reflexivity].
  rewrite fetchDeviceData_unfold, attempt_sends by exact Hlen.
  unfold bind, request. rewrite Ht. reflexivity.
Qed.

Lemma fetchDeviceData_401_no_retry_witness :
  let net := {| transport := fun _ _ => Responded 401 "Unauthorized";
                JSON_parse := fun _ => inr "Unexpected token" |} in
  fetchDeviceData net ["SN-000"] 3 {| sent := 0; trace := [] |}
  = (Throw (AuthenticationError 401),
     {| sent := 1; trace := [Request ["SN-000"]] |}).
Proof.
  intros net.
  apply (fetchDeviceData_401_no_retry net ["SN-000"] 3
           {| sent := 0; trace := [] |} "Unauthorized").
  - cbn. lia.
  - reflexivity.
Defined.

(** C8. A call of [fetchDeviceData] with more than 10 serial numbers
    rejects with the validation error of line 26 and leaves the world
    as it was: no request is sent. With at most 10 serial numbers the
    call never ends in the validation error, whatever the retries and
    the server, and the first thing it does is send the request. *)
Theorem fetchDeviceData_size_cap (net : Network) (sn : list string)
    (retries : nat) (w : World) :
  ((10 < List.length sn)%nat ->
     fetchDeviceData net sn retries w = (Throw ValidationError, w)
     /\ message ValidationError = "Batch size cannot exceed 10 devices")
  /\ ((List.length sn <= 10)%nat ->
     fst (fetchDeviceData net sn retries w) <> Throw ValidationError
     /\ exists more,
          trace (snd (fetchDeviceData net sn retries w))
          = (trace w ++ Request sn :: more)%list).
Proof.
  split.
  - intros Hlen. split; [|reflexivity].
    rewrite fetchDeviceData_unfold. unfold attempt.
    destruct (Nat.ltb_spec 10 (List.length sn)); [reflexivity|lia].
  - intros Hlen. apply fetchDeviceData_within_cap, Hlen.
Qed.

Lemma fetchDeviceData_size_cap_witness :
  let net := {| transport := fun _ _ => Responded 500 "down";
                JSON_parse := fun _ => inr "Unexpected token" |} in
  let w := {| sent := 0; trace := [] |} in
  fetchDeviceData net (Aggregator.generateSerialNumbers 11) 3 w
  = (Throw ValidationError, w)
  /\ fst (fetchDeviceData net (Aggregator.generateSerialNumbers 10) 3 w)
     <> Throw ValidationError.
Proof.
  intros net w. split.
  - apply (fetchDeviceData_size_cap net (Aggregator.generateSerialNumbers 11) 3 w).
    cbn. lia.
  - apply (fetchDeviceData_size_cap net (Aggregator.generateSerialNumbers 10) 3 w).
    cbn. lia.
Defined.

End FetchDeviceDataClaims.

(* ================================================================== *)
(** * Properties of the rate gate *)
(* ================================================================== *)

Section GateFacts.
Import RateLimiter.
Local Open Scope Q_scope.
Context {Work : Type}.
Implicit Types (s : State Work) (e : Event Work).

Lemma Qlt_bool_true (a b : Q) : Qlt_bool a b = true -> a < b.
Proof.
  unfold Qlt_bool. intros H. apply negb_true_iff in H.
  destruct (Qlt_le_dec a b) as [Hlt|Hle]; [exact Hlt|].
  apply Qle_bool_iff in Hle. congruence.
Qed.

Lemma Qlt_bool_false (a b : Q) : Qlt_bool a b = false -> b <= a.
Proof.
  unfold Qlt_bool. intros H. apply negb_false_iff in H.
  now apply Qle_bool_iff.
Qed.

Lemma spaced_nil (d : Q) : spaced d [].
Proof. intros [|i] j ti tj _ H; discriminate. Qed.

(** A new admission keeps the log spaced when it is an interval after
    every earlier one. *)
Lemma spaced_snoc (d x : Q) (times : list Q) :
  spaced d times ->
  (forall t, In t times -> t + d <= x) ->
  spaced d (times ++ [x])%list.
Proof.
  intros Hsp Hx i j ti tj Hij Hi Hj.
  assert (Hjlen : (j < List.length (times ++ [x])%list)%nat)
    by (apply nth_error_Some; congruence).
  rewrite length_app in Hjlen. cbn [List.length] in Hjlen.
  destruct (Nat.lt_ge_cases j (List.length times)) as [Hin|Hlast].
  - rewrite nth_error_app1 in Hi, Hj by lia. exact (Hsp i j ti tj Hij Hi Hj).
  - assert (j = List.length times) by lia. subst j.
    rewrite nth_error_app2, Nat.sub_diag in Hj by lia.
    injection Hj as <-.
    rewrite nth_error_app1 in Hi by lia.
    apply Hx. eapply nth_error_In, Hi.
Qed.

(** Lines 46 to 50 keep the invariant when an entry is waiting and the
    start is an interval after the last one. *)
Lemma start_item_invariant s (start : Q) :
  (forall t, In t (map fst (started s)) -> t <= lastRequestTime (gate s)) ->
  spaced (minInterval (gate s)) (map fst (started s)) ->
  lastRequestTime (gate s) <= clock s ->
  processing (gate s) = true ->
  queue (gate s) <> [] ->
  lastRequestTime (gate s) + minInterval (gate s) <= start ->
  clock s <= start ->
  invariant (start_item start s).
Proof.
  intros Hlast Hsp Hclock Hproc Hq Hgap Hmono. unfold start_item.
  destruct (queue (gate s)) as [|item rest] eqn:Eq; [congruence|].
  unfold invariant. cbn. rewrite map_app. cbn [map fst].
  split; [|split; [|split]].
  - intros t Ht. apply in_app_or in Ht as [Ht|[<-|[]]].
    + specialize (Hlast t Ht). lra.
    + lra.
  - apply spaced_snoc; [exact Hsp|].
    intros t Ht. specialize (Hlast t Ht). lra.
  - lra.
  - exact Hproc.
Qed.

(** The loop, entered with the flag up, keeps the invariant. *)
Lemma loop_invariant s (now start : Q) :
  (forall t, In t (map fst (started s)) -> t <= lastRequestTime (gate s)) ->
  spaced (minInterval (gate s)) (map fst (started s)) ->
  lastRequestTime (gate s) <= clock s ->
  processing (gate s) = true ->
  clock s <= now -> now <= start ->
  invariant (loop now start s).
Proof.
  intros Hlast Hsp Hclock Hproc Hnow Hstart. unfold loop.
  destruct (queue (gate s)) as [|item rest] eqn:Eq.
  - unfold invariant. cbn. repeat split; assumption.
  - destruct (Qlt_bool _ _) eqn:Hwait.
    + unfold invariant. cbn. rewrite Eq.
      repeat split; try assumption; try discriminate; lra.
    + apply Qlt_bool_false in Hwait.
      apply start_item_invariant; try assumption.
      * rewrite Eq. discriminate.
      * lra.
      * lra.
Qed.

Lemma step_invariant e s s' :
  invariant s -> step e s = Some s' -> invariant s'.
Proof.
  intros (Hlast & Hsp & Hclock & Hact) Hstep.
  destruct e as [item now start|start|now start]; cbn [step] in Hstep.
  - destruct (Qle_bool (clock s) now && Qle_bool now start) eqn:Hc;
      [|discriminate].
    apply andb_true_iff in Hc as [Hc1 Hc2].
    apply Qle_bool_iff in Hc1, Hc2. injection Hstep as <-.
    unfold execute, processQueue. cbn [gate queue processing set_queue].
    destruct (processing (gate s)) eqn:Hproc.
    + unfold invariant. cbn. rewrite Hproc.
      repeat split; try assumption.
      destruct (activity s); try assumption.
      destruct Hact as (_ & Hq & Hgap). repeat split; try assumption.
      destruct (queue (gate s)); discriminate.
    + destruct (queue (gate s) ++ [item])%list eqn:Eq.
      { destruct (queue (gate s)); discriminate. }
      rewrite <- Eq. apply loop_invariant; cbn; solve [assumption|reflexivity].
  - destruct (activity s) as [|now waitTime|item|] eqn:Ea; try discriminate.
    destruct (Qle_bool (now + waitTime) start && Qle_bool (clock s) start) eqn:Hc;
      [|discriminate].
    apply andb_true_iff in Hc as [Hc1 Hc2].
    apply Qle_bool_iff in Hc1, Hc2. injection Hstep as <-.
    destruct Hact as (Hproc & Hq & Hgap).
    apply start_item_invariant; try assumption. lra.
  - destruct (activity s) as [|now' waitTime|item|] eqn:Ea; try discriminate.
    destruct (Qle_bool (clock s) now && Qle_bool now start) eqn:Hc;
      [|discriminate].
    apply andb_true_iff in Hc as [Hc1 Hc2].
    apply Qle_bool_iff in Hc1, Hc2. injection Hstep as <-.
    apply loop_invariant; assumption.
Qed.

(** No step touches the interval, and the log only grows at its end. *)
Lemma start_item_frame s (start : Q) :
  minInterval (gate (start_item start s)) = minInterval (gate s)
  /\ exists more, started (start_item start s) = (started s ++ more)%list.
Proof.
  unfold start_item. destruct (queue (gate s)); cbn.
  - split; [reflexivity|]. exists []. now rewrite app_nil_r.
  - split; [reflexivity|]. eauto.
Qed.

Lemma loop_frame s (now start : Q) :
  minInterval (gate (loop now start s)) = minInterval (gate s)
  /\ exists more, started (loop now start s) = (started s ++ more)%list.
Proof.
  unfold loop. destruct (queue (gate s)).
  - cbn. split; [reflexivity|]. exists []. now rewrite app_nil_r.
  - destruct (Qlt_bool _ _).
    + cbn. split; [reflexivity|]. exists []. now rewrite app_nil_r.
    + apply start_item_frame.
Qed.

Lemma step_frame e s s' :
  step e s = Some s' ->
  minInterval (gate s') = minInterval (gate s)
  /\ exists more, started s' = (started s ++ more)%list.
Proof.
  intros Hstep.
  destruct e as [item now start|start|now start]; cbn [step] in Hstep.
  - destruct (_ && _); [|discriminate]. injection Hstep as <-.
    unfold execute, processQueue. cbn [gate queue processing set_queue].
    destruct (processing (gate s)).
    + cbn. split; [reflexivity|]. exists []. now rewrite app_nil_r.
    + destruct (queue (gate s) ++ [item])%list eqn:Eq.
      * cbn. split; [reflexivity|]. exists []. now rewrite app_nil_r.
      * rewrite <- Eq.
        match goal with |- context [loop now start ?s0] =>
          destruct (loop_frame s0 now start) as [Hm Hs] end.
        cbn in Hm, Hs. split; assumption.
  - destruct (activity s); try discriminate.
    destruct (_ && _); [|discriminate]. injection Hstep as <-.
    apply start_item_frame.
  - destruct (activity s); try discriminate.
    destruct (_ && _); [|discriminate]. injection Hstep as <-.
    apply loop_frame.
Qed.

Lemma run_invariant (events : list (Event Work)) :
  forall s s', invariant s -> run events s = Some s' ->
    invariant s'
    /\ minInterval (gate s') = minInterval (gate s)
    /\ exists more, started s' = (started s ++ more)%list.
Proof.
  induction events as [|e rest IH]; intros s s' Hinv Hrun; cbn [run] in Hrun.
  - injection Hrun as <-. split; [exact Hinv|]. split; [reflexivity|].
    exists []. now rewrite app_nil_r.
  - destruct (step e s) as [s1|] eqn:Hstep; [|discriminate].
    destruct (step_frame _ _ _ Hstep) as [Hm1 [more1 Hs1]].
    destruct (IH s1 s' (step_invariant _ _ _ Hinv Hstep) Hrun)
      as (Hinv' & Hm & more & Hs).
    split; [exact Hinv'|]. split; [congruence|].
    exists (more1 ++ more)%list. rewrite Hs, Hs1, app_assoc. reflexivity.
Qed.

Lemma initial_invariant (requestsPerSecond : Q) :
  invariant (initial Work requestsPerSecond).
Proof.
  unfold invariant, initial. cbn.
  repeat split; try (intros t []); try apply spaced_nil; lra.
Qed.

(** The first call of [execute], at a clock reading of at least one
    interval: [fn] starts inside the call. *)
Lemma first_execute (requestsPerSecond : Q) (item : Work) (now start : Q) :
  1000 / requestsPerSecond <= now -> 0 <= now -> now <= start ->
  step (Execute item now start) (initial Work requestsPerSecond)
  = Some {| gate := {| requestsPerSecond := requestsPerSecond;
                       minInterval := 1000 / requestsPerSecond;
                       lastRequestTime := start;
                       queue := [];
                       processing := true |};
            activity := Running item;
            clock := start;
            started := [(start, item)] |}.
Proof.
  intros Hmin Hnow Hstart. cbn [step initial clock].
  apply Qle_bool_iff in Hnow, Hstart. rewrite Hnow, Hstart. cbn [andb].
  unfold execute, processQueue, loop. cbn.
  assert (Hno : Qlt_bool (now - 0) (1000 / requestsPerSecond) = false).
  { unfold Qlt_bool. apply negb_false_iff, Qle_bool_iff. lra. }
  rewrite Hno. reflexivity.
Qed.

(** The gate as the run over the batches uses it, one awaited call at a
    time. A call on an idle gate starts its work item, at once or after
    one sleep; when the work item settles the gate is idle again with an
    empty queue, and the caller has what the work item settled with. *)
Lemma idle_gate_serves_call s (item : Work) (now start : Q) :
  activity s = Idle -> queue (gate s) = [] -> processing (gate s) = false ->
  clock s <= now -> now <= start ->
  exists s1,
    step (Execute item now start) s = Some s1
    /\ ((activity s1 = Running item
         /\ queue (gate s1) = []
         /\ started s1 = (started s ++ [(start, item)])%list)
        \/ (exists waitTime,
              activity s1 = Sleeping now waitTime
              /\ queue (gate s1) = [item]
              /\ started s1 = started s)).
Proof.
  intros Hidle Hq Hproc Hnow Hstart. cbn [step].
  apply Qle_bool_iff in Hnow, Hstart. rewrite Hnow, Hstart. cbn [andb].
  eexists. split; [reflexivity|].
  unfold execute, processQueue, loop, start_item. cbn.
  rewrite Hq, Hproc. cbn.
  destruct (Qlt_bool _ _); cbn; [right; eauto|left; auto].
Qed.

Lemma sleeping_gate_wakes s (item : Work) (now waitTime start : Q) :
  activity s = Sleeping now waitTime -> queue (gate s) = [item] ->
  now + waitTime <= start -> clock s <= start ->
  exists s1,
    step (TimerFired start) s = Some s1
    /\ activity s1 = Running item
    /\ queue (gate s1) = []
    /\ started s1 = (started s ++ [(start, item)])%list.
Proof.
  intros Hsleep Hq Hwake Hclock. cbn [step]. rewrite Hsleep.
  apply Qle_bool_iff in Hwake, Hclock. rewrite Hwake, Hclock. cbn [andb].
  eexists. split; [reflexivity|].
  unfold start_item. rewrite Hq. cbn. auto.
Qed.

Lemma gate_idle_when_settled s (item : Work) (now start : Q) :
  activity s = Running item -> queue (gate s) = [] ->
  clock s <= now -> now <= start ->
  exists s1,
    step (Settled now start) s = Some s1
    /\ activity s1 = Idle
    /\ queue (gate s1) = []
    /\ processing (gate s1) = false
    /\ started s1 = started s.
Proof.
  intros Hrun Hq Hnow Hstart. cbn [step]. rewrite Hrun.
  apply Qle_bool_iff in Hnow, Hstart. rewrite Hnow, Hstart. cbn [andb].
  eexists. split; [reflexivity|].
  unfold loop. rewrite Hq. cbn. auto.
Qed.

End GateFacts.

Section GateClaims.
Import RateLimiter.
Local Open Scope Q_scope.




End GateClaims.

(* ================================================================== *)
(** * Properties of the run over all batches *)
(* ================================================================== *)

Section Orchestrator.
Import JS Client Aggregator.

(** A batch whose call rejects: one entry is pushed to [errors], with
    the batch number (counted from 1), the serial numbers of the batch
    and the message, nothing is pushed to [allResults], and the loop goes
    on with the batches that remain. *)
Lemma process_batches_rejected (net : Network) (batch : list string)
    (rest : list (list string)) (i : nat) (allResults : list value)
    (errors : list Failure) (w w' : World) (e : JS.error) :
  rateLimiter_execute (fetchDeviceData net batch default_retries) w
  = (Throw e, w') ->
  process_batches net (batch :: rest) i allResults errors w
  = process_batches net rest (S i) allResults
      (errors ++ [{| batch := i + 1; serialNumbers := batch;
                     error := message e |}])%list w'.
Proof. intros H. cbn [process_batches]. rewrite H. reflexivity. Qed.

(** A batch whose call resolves with a payload that has a [data] to take
    the length of: the payload is pushed to [allResults] and nothing to
    [errors]. *)
Lemma process_batches_resolved (net : Network) (batch : list string)
    (rest : list (list string)) (i : nat) (allResults : list value)
    (errors : list Failure) (w w' : World) (result count : value) :
  rateLimiter_execute (fetchDeviceData net batch default_retries) w
  = (Ok result, w') ->
  received_count result = Ok count ->
  process_batches net (batch :: rest) i allResults errors w
  = process_batches net rest (S i) (allResults ++ [result])%list errors w'.
Proof. intros H Hc. cbn [process_batches]. rewrite H, Hc. reflexivity. Qed.

(** A batch whose call resolves with a payload from which line 122
    cannot read [data.length]: the payload has already been pushed to
    [allResults] when the message of line 122 throws, and the [catch]
    pushes an entry to [errors] for the same batch. *)
Lemma process_batches_counted_twice (net : Network) (batch : list string)
    (rest : list (list string)) (i : nat) (allResults : list value)
    (errors : list Failure) (w w' : World) (result : value) (e : JS.error) :
  rateLimiter_execute (fetchDeviceData net batch default_retries) w
  = (Ok result, w') ->
  received_count result = Throw e ->
  process_batches net (batch :: rest) i allResults errors w
  = process_batches net rest (S i) (allResults ++ [result])%list
      (errors ++ [{| batch := i + 1; serialNumbers := batch;
                     error := message e |}])%list w'.
Proof. intros H Hc. cbn [process_batches]. rewrite H, Hc. reflexivity. Qed.

(** Whatever happens to a batch, the arrays only grow and every batch
    leaves at least one entry. *)
Lemma process_batches_grows (net : Network) (batches : list (list string)) :
  forall i allResults errors w,
    let '(allResults', errors', _) :=
      process_batches net batches i allResults errors w in
    (List.length allResults + List.length errors + List.length batches
     <= List.length allResults' + List.length errors')%nat.
Proof.
  induction batches as [|batch rest IH]; intros i allResults errors w;
    cbn [process_batches List.length]; [lia|].
  destruct (rateLimiter_execute _ w) as [[result|e] w'].
  - destruct (received_count result) as [count|e].
    + specialize (IH (S i) (allResults ++ [result])%list errors w').
      destruct (process_batches net rest _ _ _ w') as [[a' e'] w''].
      rewrite length_app in IH. cbn [List.length] in IH. lia.
    + specialize (IH (S i) (allResults ++ [result])%list
                    (errors ++ [{| batch := i + 1; serialNumbers := batch;
                                   error := message e |}])%list w').
      destruct (process_batches net rest _ _ _ w') as [[a' e'] w''].
      rewrite !length_app in IH. cbn [List.length] in IH. lia.
  - specialize (IH (S i) allResults
                  (errors ++ [{| batch := i + 1; serialNumbers := batch;
                                 error := message e |}])%list w').
    destruct (process_batches net rest _ _ _ w') as [[a' e'] w''].
    rewrite length_app in IH. cbn [List.length] in IH. lia.
Qed.

End Orchestrator.

Section OrchestratorClaims.
Import JS Client Aggregator.

(** C4. Against a server whose seventh answer is 200 with the body
    [{}], the run over the 500 serial numbers goes through all 50
    batches and returns, but batch 7 is resolved twice: its payload is
    the seventh entry of [allResults] and [errors] holds a Failure for
    batch 7 (with its ten serial numbers and the TypeError message of
    line 122), so 50 batches are reported as successful and 1 as failed
    out of 50 processed. *)
Theorem aggregateAllDevices_counts_batch_twice :
  (exists batches allResults errors w,
     createBatches (generateSerialNumbers 500) 10 = Some batches
     /\ process_batches seventh_without_data batches 0 [] [] fresh_world
        = (allResults, errors, w)
     /\ nth_error allResults 6 = Some (Object [])
     /\ errors
        = [{| batch := 7;
              serialNumbers :=
                ["SN-060"; "SN-061"; "SN-062"; "SN-063"; "SN-064";
                 "SN-065"; "SN-066"; "SN-067"; "SN-068"; "SN-069"];
              error :=
                "Cannot read properties of undefined (reading 'length')" |}])
  /\ (exists run w,
     aggregateAllDevices seventh_without_data fresh_world = Some (Ok run, w)
     /\ batchesProcessed run = 50%nat
     /\ batchesSuccessful run = 50%nat
     /\ batchesFailed run = 1%nat
     /\ (batchesSuccessful run + batchesFailed run)%nat <> batchesProcessed run).
Proof.
  split.
  - do 4 eexists. split; [vm_compute; reflexivity|].
    split; [vm_compute; reflexivity|]. split; reflexivity.
  - do 2 eexists. split; [vm_compute; reflexivity|].
    cbn [batchesProcessed batchesSuccessful batchesFailed].
    repeat split. discriminate.
Qed.

End OrchestratorClaims.

(* ================================================================== *)
(** * More on fetchDeviceData: the whole retry policy *)
(* ================================================================== *)

Section Verdicts.
Import JS Client Policy.
Variable net : Network.

Lemma classify_transient (r : reply) :
  transient r = true ->
  classify net r = Retry (delay_after r) (exhausted_error r).
Proof.
  destruct r as [statusCode data|msg]; cbn; [|reflexivity].
  intros H. apply orb_true_iff in H.
  destruct (Z.eqb_spec statusCode 429) as [->|Hne]; [reflexivity|].
  destruct H as [H|H]; [discriminate|]. rewrite H.
  apply Z.leb_le in H.
  destruct (Z.eqb_spec statusCode 200); [lia|].
  destruct (Z.eqb_spec statusCode 401); [lia|]. reflexivity.
Qed.

Lemma classify_settled (r : reply) :
  transient r = false ->
  classify net r
  = match settle net r with
    | Ok parsed => Resolve parsed
    | Throw e => Reject e
    end.
Proof.
  unfold settle. destruct r as [statusCode data|msg]; cbn; [|discriminate].
  intros H. apply orb_false_iff in H as [H1 H2]. rewrite H1, H2.
  destruct (statusCode =? 200); [destruct (JSON_parse net data); reflexivity|].
  destruct (statusCode =? 401); reflexivity.
Qed.

Lemma settle_transient (r : reply) :
  transient r = true -> settle net r = Throw (exhausted_error r).
Proof. intros H. unfold settle. now rewrite classify_transient. Qed.

End Verdicts.

Section FetchPolicy.
Import JS Client Policy.
Variable net : Network.
Variable sn : list string.
Hypothesis within_cap : (List.length sn <= 10)%nat.

(** One turn of [fetchDeviceData], by the verdict on the reply. *)
Lemma fetch_step (retries : nat) (w : World) :
  fetchDeviceData net sn retries w
  = match classify net (transport net (sent w) sn) with
    | Resolve parsed => (Ok parsed, after_request sn w)
    | Reject e => (Throw e, after_request sn w)
    | Retry ms exhausted =>
        match retries with
        | O => (Throw exhausted, after_request sn w)
        | S fewer =>
            fetchDeviceData net sn fewer (emit (Timeout ms) (after_request sn w))
        end
    end.
Proof.
  rewrite fetchDeviceData_unfold, attempt_sends by exact within_cap.
  unfold bind, request, classify, after_request, setTimeout, throw, ret.
  destruct (transport net (sent w) sn) as [statusCode data|msg].
  - destruct (statusCode =? 200); [destruct (JSON_parse net data); reflexivity|].
    destruct (statusCode =? 429); [destruct retries; reflexivity|].
    destruct (statusCode =? 401); [reflexivity|].
    destruct retries; destruct (500 <=? statusCode); reflexivity.
  - destruct retries; reflexivity.
Qed.

Lemma delays_from_S (n k : nat) :
  delays_from net sn n (S k)
  = delay_after (transport net n sn) :: delays_from net sn (S n) k.
Proof.
  unfold delays_from. cbn [seq map]. rewrite Nat.add_0_r. f_equal.
  rewrite <- seq_shift, map_map. apply map_ext. intros j.
  now rewrite Nat.add_succ_r.
Qed.

(** The whole call: [k] retries are taken, where [k] counts the
    transient replies met before the first other reply or the end of
    the budget; the call settles on reply [k]. *)
Lemma fetch_run (retries : nat) :
  forall w, exists k,
    (k <= retries)%nat
    /\ (forall j, (j < k)%nat -> transient (transport net (sent w + j) sn) = true)
    /\ ((k < retries)%nat -> transient (transport net (sent w + k) sn) = false)
    /\ fetchDeviceData net sn retries w
       = (settle net (transport net (sent w + k) sn),
          {| sent := sent w + S k;
             trace := (trace w ++ attempts sn (delays_from net sn (sent w) k))%list |}).
Proof.
  induction retries as [|fewer IH]; intros w; rewrite fetch_step.
  - exists 0%nat. rewrite Nat.add_0_r, Nat.add_1_r.
    split; [lia|]. split; [intros j Hj; lia|]. split; [lia|].
    unfold settle, after_request.
    destruct (classify net (transport net (sent w) sn)); reflexivity.
  - destruct (transient (transport net (sent w) sn)) eqn:Ht.
    + rewrite (classify_transient net _ Ht).
      destruct (IH (emit (Timeout (delay_after (transport net (sent w) sn)))
                      (after_request sn w))) as (k & Hk & Hbefore & Hstop & Hrun).
      cbn [emit after_request sent trace] in Hbefore, Hstop, Hrun.
      exists (S k). split; [lia|]. split; [|split].
      * intros [|j] Hj; [now rewrite Nat.add_0_r|].
        rewrite Nat.add_succ_r. apply Hbefore. lia.
      * intros Hlt. rewrite Nat.add_succ_r. apply Hstop. lia.
      * rewrite Hrun, delays_from_S. cbn [attempts].
        rewrite !Nat.add_succ_r. cbn [Nat.add].
        repeat rewrite <- app_assoc. reflexivity.
    + rewrite (classify_settled net _ Ht).
      exists 0%nat. rewrite Nat.add_0_r, Nat.add_1_r.
      split; [lia|]. split; [intros j Hj; lia|]. split; [intros _; exact Ht|].
      unfold after_request.
      destruct (settle net (transport net (sent w) sn)); reflexivity.
Qed.

Lemma delays_from_length (n k : nat) : List.length (delays_from net sn n k) = k.
Proof. unfold delays_from. now rewrite length_map, length_seq. Qed.

Lemma delays_from_values (n k : nat) :
  Forall (fun ms => ms = 1000 \/ ms = 1500) (delays_from net sn n k).
Proof.
  unfold delays_from. apply Forall_map, Forall_forall. intros j _.
  unfold delay_after. destruct (transport net (n + j) sn) as [c d|m]; [|auto].
  destruct (c =? 429); auto.
Qed.

End FetchPolicy.

Section FetchPolicyExtras.
Import JS Client Policy.

(** X1. A call for a batch within the cap sends at least one request and
    at most [retries + 1]; between two requests it takes exactly one
    delay, of 1000 or 1500 ms; it does nothing else, and the request
    counter grows by the number of requests. *)
Theorem fetchDeviceData_request_budget (net : Network) (sn : list string)
    (retries : nat) (w : World) :
  (List.length sn <= 10)%nat ->
  exists delays,
    (List.length delays <= retries)%nat
    /\ Forall (fun ms => ms = 1000 \/ ms = 1500) delays
    /\ trace (snd (fetchDeviceData net sn retries w))
       = (trace w ++ attempts sn delays)%list
    /\ sent (snd (fetchDeviceData net sn retries w))
       = (sent w + S (List.length delays))%nat.
Proof.
  intros Hcap.
  destruct (fetch_run net sn Hcap retries w) as (k & Hk & _ & _ & Hrun).
  exists (delays_from net sn (sent w) k). rewrite Hrun. cbn [snd trace sent].
  rewrite delays_from_length.
  split; [exact Hk|]. split; [apply delays_from_values|]. split; reflexivity.
Qed.

Lemma fetchDeviceData_request_budget_witness :
  let net := {| transport := fun n _ =>
                  match n with
                  | O => Responded 429 "slow down"
                  | 1%nat => Errored "ECONNRESET"
                  | _ => Responded 404 "not found"
                  end;
                JSON_parse := fun _ => inr "Unexpected token" |} in
  exists delays,
    (List.length delays <= 3)%nat
    /\ trace (snd (fetchDeviceData net ["SN-000"] 3 {| sent := 0; trace := [] |}))
       = attempts ["SN-000"] delays.
Proof.
  intros net.
  destruct (fetchDeviceData_request_budget net ["SN-000"] 3
              {| sent := 0; trace := [] |}) as (delays & Hlen & _ & Ht & _).
  - cbn. lia.
  - exists delays. split; [exact Hlen|exact Ht].
Defined.

(** X2. When the first [k] replies are transient (network error, 429,
    or 500 and above), [k] is within the retry budget and reply [k] is
    not transient, the call settles on reply [k] after exactly [k]
    retries; in particular a 200 with a parseable body then resolves
    with the parsed payload. *)
Theorem fetchDeviceData_recovers (net : Network) (sn : list string)
    (retries k : nat) (w : World) :
  (List.length sn <= 10)%nat ->
  (k <= retries)%nat ->
  (forall j, (j < k)%nat -> transient (transport net (sent w + j) sn) = true) ->
  transient (transport net (sent w + k) sn) = false ->
  fetchDeviceData net sn retries w
  = (settle net (transport net (sent w + k) sn),
     {| sent := sent w + S k;
        trace := (trace w ++ attempts sn (delays_from net sn (sent w) k))%list |})
  /\ (forall body parsed,
        transport net (sent w + k) sn = Responded 200 body ->
        JSON_parse net body = inl parsed ->
        fst (fetchDeviceData net sn retries w) = Ok parsed).
Proof.
  intros Hcap Hk Hbefore Hstop.
  destruct (fetch_run net sn Hcap retries w) as (k0 & Hk0 & Hb0 & Hs0 & Hrun).
  assert (k0 = k) as ->.
  { destruct (Nat.lt_trichotomy k0 k) as [Hlt|[Heq|Hgt]]; [|exact Heq|].
    - rewrite Hbefore in Hs0 by exact Hlt. discriminate Hs0. lia.
    - rewrite Hb0 in Hstop by exact Hgt. discriminate. }
  split; [exact Hrun|].
  intros body parsed Hreply Hparse. rewrite Hrun. cbn [fst].
  unfold settle, classify. rewrite Hreply. cbn. now rewrite Hparse.
Qed.

Lemma fetchDeviceData_recovers_witness :
  let net := {| transport := fun n _ =>
                  match n with
                  | O | 1%nat => Errored "ECONNRESET"
                  | _ => Responded 200 "{}"
                  end;
                JSON_parse := fun _ => inl (Object []) |} in
  fetchDeviceData net ["SN-000"] 3 {| sent := 0; trace := [] |}
  = (Ok (Object []),
     {| sent := 3;
        trace := [Request ["SN-000"]; Timeout 1000;
                  Request ["SN-000"]; Timeout 1000; Request ["SN-000"]] |}).
Proof.
  intros net.
  destruct (fetchDeviceData_recovers net ["SN-000"] 3 2
              {| sent := 0; trace := [] |}) as [H _].
  - cbn. lia.
  - lia.
  - intros [|[|j]] Hj; [reflexivity|reflexivity|lia].
  - reflexivity.
  - rewrite H. reflexivity.
Defined.

(** X3. When every reply is transient, the call spends its whole budget:
    it sends [retries + 1] requests and rejects with the error of the
    last reply (the rate-limit error after a 429, the request-failed
    error after a status of 500 and above, the network error after a
    network error). *)
Theorem fetchDeviceData_exhausts (net : Network) (sn : list string)
    (retries : nat) (w : World) :
  (List.length sn <= 10)%nat ->
  (forall j, (j <= retries)%nat ->
     transient (transport net (sent w + j) sn) = true) ->
  fetchDeviceData net sn retries w
  = (Throw (exhausted_error (transport net (sent w + retries) sn)),
     {| sent := sent w + S retries;
        trace := (trace w ++ attempts sn (delays_from net sn (sent w) retries))%list |}).
Proof.
  intros Hcap Hall.
  destruct (fetch_run net sn Hcap retries w) as (k & Hk & _ & Hstop & Hrun).
  assert (k = retries) as ->.
  { destruct (Nat.eq_dec k retries) as [Heq|Hne]; [exact Heq|].
    rewrite Hall in Hstop by lia. discriminate Hstop. lia. }
  rewrite Hrun, settle_transient by (apply Hall; lia). reflexivity.
Qed.

Lemma fetchDeviceData_exhausts_witness :
  let net := {| transport := fun n _ =>
                  match n with
                  | O => Responded 503 "unavailable"
                  | _ => Errored "ETIMEDOUT"
                  end;
                JSON_parse := fun _ => inr "Unexpected token" |} in
  fst (fetchDeviceData net ["SN-000"] 2 {| sent := 0; trace := [] |})
  = Throw (NetworkError "ETIMEDOUT").
Proof.
  intros net.
  rewrite (fetchDeviceData_exhausts net ["SN-000"] 2 {| sent := 0; trace := [] |}).
  - reflexivity.
  - cbn. lia.
  - intros [|[|[|j]]] Hj; reflexivity.
Defined.

(** X4. A first reply that is not transient ends the call at once,
    whatever the retry budget: one request, no delay; a 200 resolves
    with the parsed body or rejects with the parse error, a 401 rejects
    with the authentication error, any other status rejects with the
    request-failed error carrying status and body. *)
Theorem fetchDeviceData_settles_at_once (net : Network) (sn : list string)
    (retries : nat) (w : World) (statusCode : Z) (data : string) :
  (List.length sn <= 10)%nat ->
  transport net (sent w) sn = Responded statusCode data ->
  statusCode <> 429 -> statusCode < 500 ->
  fetchDeviceData net sn retries w
  = ((if statusCode =? 200 then
        match JSON_parse net data with
        | inl parsed => Ok parsed
        | inr msg => Throw (ParseError msg)
        end
      else if statusCode =? 401 then Throw (AuthenticationError statusCode)
      else Throw (RequestFailed statusCode data)),
     {| sent := S (sent w); trace := (trace w ++ [Request sn])%list |}).
Proof.
  intros Hcap Hreply Hne Hlt.
  rewrite (fetch_step net sn Hcap), Hreply. unfold classify, after_request.
  destruct (Z.eqb_spec statusCode 429); [contradiction|].
  destruct (Z.leb_spec 500 statusCode); [lia|].
  destruct (statusCode =? 200); [destruct (JSON_parse net data); reflexivity|].
  destruct (statusCode =? 401); reflexivity.
Qed.

Lemma fetchDeviceData_settles_at_once_witness :
  let net := {| transport := fun _ _ => Responded 404 "no such route";
                JSON_parse := fun _ => inr "Unexpected token" |} in
  fetchDeviceData net ["SN-000"] 3 {| sent := 0; trace := [] |}
  = (Throw (RequestFailed 404 "no such route"),
     {| sent := 1; trace := [Request ["SN-000"]] |}).
Proof.
  intros net.
  apply (fetchDeviceData_settles_at_once net ["SN-000"] 3
           {| sent := 0; trace := [] |} 404 "no such route").
  - cbn. lia.
  - reflexivity.
  - lia.
  - lia.
Defined.

(** X5. What a rejection of a call within the cap can be. It is never a
    TypeError or the validation error; the rate-limit error carries 429,
    the authentication error 401, the request-failed error a status
    other than 200, 429 and 401; and the errors of the retried kinds
    (rate limit, network, status of 500 and above) are raised only when
    all [retries + 1] requests have been sent. *)
Theorem fetchDeviceData_rejections (net : Network) (sn : list string)
    (retries : nat) (w w' : World) (e : error) :
  (List.length sn <= 10)%nat ->
  fetchDeviceData net sn retries w = (Throw e, w') ->
  match e with
  | TypeError _ | ValidationError => False
  | ParseError _ => True
  | RateLimitExceeded statusCode => statusCode = 429
  | AuthenticationError statusCode => statusCode = 401
  | RequestFailed statusCode _ =>
      statusCode <> 200 /\ statusCode <> 429 /\ statusCode <> 401
  | NetworkError _ => True
  end
  /\ (after_retries e = true -> sent w' = (sent w + S retries)%nat).
Proof.
  intros Hcap Hrun.
  destruct (fetch_run net sn Hcap retries w) as (k & Hk & _ & Hstop & Hrun').
  rewrite Hrun in Hrun'. apply pair_equal_spec in Hrun' as [He ->]. cbn [sent].
  destruct (transient (transport net (sent w + k) sn)) eqn:Ht.
  - assert (k = retries) as ->.
    { destruct (Nat.eq_dec k retries) as [Heq|Hne]; [exact Heq|].
      assert (Hlt : (k < retries)%nat) by lia.
      specialize (Hstop Hlt). congruence. }
    split; [|reflexivity].
    rewrite settle_transient in He by exact Ht. injection He as ->.
    destruct (transport net (sent w + retries) sn) as [c d|m]; cbn in *;
      [|exact I].
    destruct (Z.eqb_spec c 429) as [->|Hne]; [reflexivity|].
    cbn in Ht. apply Z.leb_le in Ht. lia.
  - unfold settle in He. rewrite (classify_settled net _ Ht) in He.
    destruct (transport net (sent w + k) sn) as [c d|m]; [|discriminate].
    cbn in Ht. apply orb_false_iff in Ht as [H429 H500].
    unfold settle, classify in He. rewrite H429, H500 in He.
    destruct (Z.eqb_spec c 200) as [->|H200].
    + destruct (JSON_parse net d); [discriminate|].
      injection He as ->. split; [exact I|discriminate].
    + destruct (Z.eqb_spec c 401) as [->|H401].
      * injection He as ->. split; [reflexivity|discriminate].
      * injection He as ->. apply Z.eqb_neq in H429. split; [auto|].
        cbn. rewrite H500. discriminate.
Qed.

Lemma fetchDeviceData_rejections_witness :
  let net := {| transport := fun _ _ => Responded 429 "slow down";
                JSON_parse := fun _ => inr "Unexpected token" |} in
  sent (snd (fetchDeviceData net ["SN-000"] 3 {| sent := 5; trace := [] |}))
  = 9%nat.
Proof.
  intros net.
  destruct (fetchDeviceData net ["SN-000"] 3 {| sent := 5; trace := [] |})
    as [[v|e] w'] eqn:Hrun; [vm_compute in Hrun; discriminate|].
  destruct (fetchDeviceData_rejections net ["SN-000"] 3 _ _ _
              ltac:(cbn; lia) Hrun) as [_ Hsent].
  cbn [snd]. apply Hsent.
  vm_compute in Hrun. injection Hrun as <- _. reflexivity.
Defined.

(** X6. A payload the call resolves with is what [JSON.parse] made of
    the body of the last reply, and that reply had status 200. *)
Theorem fetchDeviceData_payload_origin (net : Network) (sn : list string)
    (retries : nat) (w w' : World) (parsed : value) :
  fetchDeviceData net sn retries w = (Ok parsed, w') ->
  exists body,
    sent w' = S (Nat.pred (sent w'))
    /\ (sent w <= Nat.pred (sent w'))%nat
    /\ transport net (Nat.pred (sent w')) sn = Responded 200 body
    /\ JSON_parse net body = inl parsed.
Proof.
  intros Hrun.
  assert (Hcap : (List.length sn <= 10)%nat).
  { destruct (Nat.le_gt_cases (List.length sn) 10) as [H|H]; [exact H|].
    rewrite fetchDeviceData_unfold in Hrun. unfold attempt in Hrun.
    destruct (Nat.ltb_spec 10 (List.length sn)); [discriminate|lia]. }
  destruct (fetch_run net sn Hcap retries w) as (k & _ & _ & _ & Hrun').
  rewrite Hrun in Hrun'. apply pair_equal_spec in Hrun' as [He ->]. cbn [sent].
  rewrite Nat.add_succ_r. cbn [Nat.pred].
  unfold settle, classify in He.
  destruct (transport net (sent w + k) sn) as [c d|m]; [|discriminate].
  destruct (Z.eqb_spec c 200) as [->|H200].
  - destruct (JSON_parse net d) as [v|m] eqn:Hp; [|discriminate].
    injection He as ->. exists d. repeat split; try assumption. lia.
  - destruct (c =? 429); [discriminate|].
    destruct (c =? 401); [discriminate|].
    destruct (500 <=? c); discriminate.
Qed.

Lemma fetchDeviceData_payload_origin_witness :
  let net := {| transport := fun n _ =>
                  match n with
                  | O => Responded 500 "oops"
                  | _ => Responded 200 "null"
                  end;
                JSON_parse := fun _ => inl Null |} in
  exists body, transport net 1 ["SN-000"] = Responded 200 body
               /\ JSON_parse net body = inl Null.
Proof.
  intros net.
  destruct (fetchDeviceData_payload_origin net ["SN-000"] 3
              {| sent := 0; trace := [] |}
              {| sent := 2;
                 trace := [Request ["SN-000"]; Timeout 1000; Request ["SN-000"]] |}
              Null eq_refl) as (body & _ & _ & Hreply & Hparse).
  exists body. split; assumption.
Defined.

End FetchPolicyExtras.

(* ================================================================== *)
(** * More on the rate gate: order, bookkeeping, sleeping time *)
(* ================================================================== *)

Section GateOrder.
Import RateLimiter GateSpec.
Local Open Scope Q_scope.
Context {Work : Type}.
Implicit Types (s : State Work) (e : Event Work).

Lemma start_item_ledger s (start : Q) : ledger (start_item start s) = ledger s.
Proof.
  unfold start_item, ledger. destruct (queue (gate s)) as [|item rest] eqn:Eq; cbn.
  - now rewrite Eq.
  - rewrite map_app, <- app_assoc. reflexivity.
Qed.

Lemma loop_ledger s (now start : Q) : ledger (loop now start s) = ledger s.
Proof.
  unfold loop. destruct (queue (gate s)) as [|item rest] eqn:Eq.
  - unfold ledger. cbn. now rewrite Eq.
  - destruct (Qlt_bool _ _); [reflexivity|apply start_item_ledger].
Qed.

Lemma step_ledger e s s' :
  step e s = Some s' -> ledger s' = (ledger s ++ submitted [e])%list.
Proof.
  intros Hstep.
  destruct e as [item now start|start|now start]; cbn [step] in Hstep;
    cbn [submitted flat_map app].
  - destruct (_ && _); [|discriminate]. injection Hstep as <-.
    unfold execute, processQueue. cbn [gate queue processing set_queue].
    destruct (processing (gate s)).
    + unfold ledger. cbn. now rewrite app_assoc.
    + destruct (queue (gate s) ++ [item])%list eqn:Eq.
      * destruct (queue (gate s)); discriminate.
      * rewrite <- Eq, loop_ledger. unfold ledger. cbn. now rewrite app_assoc.
  - destruct (activity s); try discriminate.
    destruct (_ && _); [|discriminate]. injection Hstep as <-.
    now rewrite start_item_ledger, app_nil_r.
  - destruct (activity s); try discriminate.
    destruct (_ && _); [|discriminate]. injection Hstep as <-.
    now rewrite loop_ledger, app_nil_r.
Qed.

Lemma run_ledger (events : list (Event Work)) :
  forall s s', run events s = Some s' ->
    ledger s' = (ledger s ++ submitted events)%list.
Proof.
  induction events as [|e rest IH]; intros s s' Hrun; cbn [run] in Hrun.
  - injection Hrun as <-. cbn. now rewrite app_nil_r.
  - destruct (step e s) as [s1|] eqn:Hstep; [|discriminate].
    rewrite (IH _ _ Hrun), (step_ledger _ _ _ Hstep), <- app_assoc.
    f_equal. unfold submitted. cbn [flat_map]. now rewrite app_nil_r.
Qed.

Lemma start_item_tidy s (start : Q) :
  processing (gate s) = true -> queue (gate s) <> [] -> clock s <= start ->
  tidy (start_item start s).
Proof.
  intros Hproc Hq Hclock. unfold start_item.
  destruct (queue (gate s)) as [|item rest]; [congruence|].
  unfold tidy, latest_start. cbn [started]. rewrite map_app. cbn [map fst].
  rewrite last_last. cbn.
  repeat split; try assumption; try discriminate; lra.
Qed.

Lemma loop_tidy s (now start : Q) :
  processing (gate s) = true ->
  lastRequestTime (gate s) = latest_start s ->
  lastRequestTime (gate s) <= clock s ->
  clock s <= now -> now <= start ->
  tidy (loop now start s).
Proof.
  intros Hproc Hlast Hclock Hnow Hstart. unfold loop.
  destruct (queue (gate s)) as [|item rest] eqn:Eq.
  - unfold tidy, latest_start. cbn. repeat split; intros; assumption.
  - destruct (Qlt_bool _ _) eqn:Hwait.
    + apply Qlt_bool_true in Hwait.
      unfold tidy, latest_start. cbn. rewrite Eq.
      repeat split; try assumption; try discriminate; lra.
    + apply start_item_tidy; [exact Hproc|rewrite Eq; discriminate|lra].
Qed.

Lemma step_tidy e s s' : tidy s -> step e s = Some s' -> tidy s'.
Proof.
  intros (Hflag & Hidle & Hlast & Hclock & Hact) Hstep.
  destruct e as [item now start|start|now start]; cbn [step] in Hstep.
  - destruct (Qle_bool (clock s) now && Qle_bool now start) eqn:Hc;
      [|discriminate].
    apply andb_true_iff in Hc as [Hc1 Hc2].
    apply Qle_bool_iff in Hc1, Hc2. injection Hstep as <-.
    unfold execute, processQueue. cbn [gate queue processing set_queue].
    destruct (processing (gate s)) eqn:Hproc.
    + unfold tidy, latest_start. cbn. rewrite Hproc.
      destruct (activity s) as [|n wt|it|]; cbn in Hflag; try discriminate;
        try contradiction.
      * repeat split; try assumption; try discriminate; try apply Hact.
        destruct (queue (gate s)); discriminate.
      * repeat split; try assumption; discriminate.
    + destruct (queue (gate s) ++ [item])%list eqn:Eq.
      { destruct (queue (gate s)); discriminate. }
      rewrite <- Eq. apply loop_tidy; cbn; solve [assumption|reflexivity].
  - destruct (activity s) as [|now waitTime|item|] eqn:Ea; try discriminate.
    destruct (Qle_bool (now + waitTime) start && Qle_bool (clock s) start) eqn:Hc;
      [|discriminate].
    apply andb_true_iff in Hc as [Hc1 Hc2].
    apply Qle_bool_iff in Hc1, Hc2. injection Hstep as <-.
    apply start_item_tidy; [exact Hflag|apply Hact|exact Hc2].
  - destruct (activity s) as [|now' waitTime|item|] eqn:Ea; try discriminate.
    destruct (Qle_bool (clock s) now && Qle_bool now start) eqn:Hc;
      [|discriminate].
    apply andb_true_iff in Hc as [Hc1 Hc2].
    apply Qle_bool_iff in Hc1, Hc2. injection Hstep as <-.
    apply loop_tidy; assumption.
Qed.

Lemma initial_tidy (requestsPerSecond : Q) :
  tidy (initial Work requestsPerSecond).
Proof.
  unfold tidy, latest_start. cbn. repeat split; try reflexivity. lra.
Qed.

Lemma run_tidy (events : list (Event Work)) :
  forall s s', tidy s -> run events s = Some s' -> tidy s'.
Proof.
  induction events as [|e rest IH]; intros s s' Ht Hrun; cbn [run] in Hrun.
  - now injection Hrun as <-.
  - destruct (step e s) as [s1|] eqn:Hstep; [|discriminate].
    eapply IH; [eapply step_tidy; eassumption|exact Hrun].
Qed.

End GateOrder.

Section GateExtras.
Import RateLimiter GateSpec.
Local Open Scope Q_scope.

(** X7. The gate is first in, first out and loses nothing: after any
    sequence of events, the work items started so far followed by those
    still queued are exactly the work items handed to [execute], in the
    order of the calls; none is started twice and none overtakes
    another. *)
Theorem gate_first_in_first_out (Work : Type) (requestsPerSecond : Q)
    (events : list (Event Work)) (s : State Work) :
  run events (initial Work requestsPerSecond) = Some s ->
  (map snd (started s) ++ queue (gate s))%list = submitted events.
Proof.
  intros Hrun. apply run_ledger in Hrun. exact Hrun.
Qed.

Lemma gate_first_in_first_out_witness :
  exists s,
    run [Execute "a" 5000 5000; Execute "b" 5001 5001; Execute "c" 5002 5002;
         Settled 5300 5300; TimerFired 6000]%string (initial string 1) = Some s
    /\ map snd (started s) = ["a"; "b"]%string
    /\ queue (gate s) = ["c"]%string.
Proof.
  destruct (run [Execute "a" 5000 5000; Execute "b" 5001 5001;
                 Execute "c" 5002 5002; Settled 5300 5300; TimerFired 6000]%string
              (initial string 1)) as [s|] eqn:Hrun;
    [|vm_compute in Hrun; discriminate].
  exists s. split; [reflexivity|].
  pose proof (gate_first_in_first_out _ _ _ _ Hrun) as Hfifo.
  vm_compute in Hrun. injection Hrun as <-. split; reflexivity.
Defined.

(** X8. In every state the gate reaches, the flag [processing] is down
    exactly when the loop is idle, an idle gate has an empty queue (no
    work item is left behind when the loop exits), and
    [lastRequestTime] is the reading stamped by the latest start (0
    before the first). *)
Theorem gate_bookkeeping (Work : Type) (requestsPerSecond : Q)
    (events : list (Event Work)) (s : State Work) :
  run events (initial Work requestsPerSecond) = Some s ->
  processing (gate s) = negb (is_idle (activity s))
  /\ (activity s = Idle -> queue (gate s) = [])
  /\ lastRequestTime (gate s) = last (map fst (started s)) 0.
Proof.
  intros Hrun.
  destruct (run_tidy events _ _ (initial_tidy requestsPerSecond) Hrun)
    as (Hflag & Hidle & Hlast & _).
  repeat split; assumption.
Qed.

Lemma gate_bookkeeping_witness :
  exists s,
    run [Execute "a" 5000 5000; Settled 5300 5300]%string (initial string 1)
    = Some s
    /\ processing (gate s) = false /\ lastRequestTime (gate s) = 5000.
Proof.
  destruct (run [Execute "a" 5000 5000; Settled 5300 5300]%string
              (initial string 1)) as [s|] eqn:Hrun;
    [|vm_compute in Hrun; discriminate].
  exists s. split; [reflexivity|].
  destruct (gate_bookkeeping _ _ _ _ Hrun) as (Hflag & _ & Hlast).
  rewrite Hflag, Hlast.
  vm_compute in Hrun. injection Hrun as <-. split; reflexivity.
Defined.

(** X9. Whenever the gate sleeps, it has a work item to wake up for, it
    sleeps for a positive time of at most [minInterval], and the sleep
    ends exactly one interval after the latest start. *)
Theorem gate_sleep_bounds (Work : Type) (requestsPerSecond : Q)
    (events : list (Event Work)) (s : State Work) (now waitTime : Q) :
  run events (initial Work requestsPerSecond) = Some s ->
  activity s = Sleeping now waitTime ->
  0 < waitTime
  /\ waitTime <= minInterval (gate s)
  /\ now + waitTime == lastRequestTime (gate s) + minInterval (gate s)
  /\ queue (gate s) <> [].
Proof.
  intros Hrun Hsleep.
  destruct (run_tidy events _ _ (initial_tidy requestsPerSecond) Hrun)
    as (_ & _ & _ & _ & Hact).
  rewrite Hsleep in Hact. destruct Hact as (-> & Hlt & Hle & Hq).
  repeat split; try assumption; lra.
Qed.

Lemma gate_sleep_bounds_witness :
  exists s waitTime,
    run [Execute "a" 5000 5000; Execute "b" 5001 5001; Settled 5300 5300]%string
      (initial string 1) = Some s
    /\ activity s = Sleeping 5300 waitTime
    /\ 0 < waitTime /\ waitTime <= 1000.
Proof.
  destruct (run [Execute "a" 5000 5000; Execute "b" 5001 5001;
                 Settled 5300 5300]%string (initial string 1))
    as [s|] eqn:Hrun; [|vm_compute in Hrun; discriminate].
  assert (Hs : activity s = Sleeping 5300 700 /\ minInterval (gate s) = 1000).
  { vm_compute in Hrun. injection Hrun as <-. split; reflexivity. }
  destruct Hs as [Hsleep Hmin].
  destruct (gate_sleep_bounds _ _ _ _ _ _ Hrun Hsleep) as (Hpos & Hle & _).
  exists s, 700. rewrite Hmin in Hle. repeat split; assumption.
Defined.

(** X10. When a work item settles and others wait, the next one starts
    at once if one interval has gone by since the latest start (a slow
    work item adds no delay to the next); otherwise the gate sleeps for
    exactly what is left of the interval and starts nothing. *)
Theorem gate_after_settlement (Work : Type) (s : State Work)
    (finished item : Work) (rest : list Work) (now start : Q) :
  activity s = Running finished ->
  queue (gate s) = item :: rest ->
  clock s <= now -> now <= start ->
  (lastRequestTime (gate s) + minInterval (gate s) <= now ->
   step (Settled now start) s
   = Some {| gate := set_lastRequestTime start (set_queue rest (gate s));
             activity := Running item;
             clock := start;
             started := (started s ++ [(start, item)])%list |})
  /\ (now < lastRequestTime (gate s) + minInterval (gate s) ->
      step (Settled now start) s
      = Some {| gate := gate s;
                activity :=
                  Sleeping now (minInterval (gate s)
                                - (now - lastRequestTime (gate s)));
                clock := now;
                started := started s |}).
Proof.
  intros Hrun Hq Hnow Hstart. cbn [step]. rewrite Hrun.
  apply Qle_bool_iff in Hnow, Hstart. rewrite Hnow, Hstart. cbn [andb].
  unfold loop, start_item. rewrite Hq. split; intros Hgap.
  - assert (Hno : Qlt_bool (now - lastRequestTime (gate s)) (minInterval (gate s))
                  = false).
    { unfold Qlt_bool. apply negb_false_iff, Qle_bool_iff. lra. }
    rewrite Hno. reflexivity.
  - assert (Hyes : Qlt_bool (now - lastRequestTime (gate s)) (minInterval (gate s))
                   = true).
    { unfold Qlt_bool. apply negb_true_iff.
      destruct (Qle_bool (minInterval (gate s))
                  (now - lastRequestTime (gate s))) eqn:Hb; [|reflexivity].
      apply Qle_bool_iff in Hb. lra. }
    rewrite Hyes. reflexivity.
Qed.

Lemma gate_after_settlement_witness :
  let s := {| gate := {| requestsPerSecond := 1; minInterval := 1000;
                         lastRequestTime := 5000; queue := ["b"]%string;
                         processing := true |};
              activity := Running "a"%string;
              clock := 5000;
              started := [(5000, "a"%string)] |} in
  (exists s', step (Settled 7200 7200) s = Some s'
              /\ activity s' = Running "b"%string)
  /\ (exists s', step (Settled 5300 5300) s = Some s'
                 /\ started s' = [(5000, "a"%string)]).
Proof.
  intros s.
  destruct (gate_after_settlement string s "a"%string "b"%string [] 7200 7200)
    as [Hslow _]; try reflexivity; [unfold Qle; cbn; lia..|].
  destruct (gate_after_settlement string s "a"%string "b"%string [] 5300 5300)
    as [_ Hfast]; try reflexivity; [unfold Qle; cbn; lia..|].
  split.
  - eexists. split; [apply Hslow; unfold Qle; cbn; lia|reflexivity].
  - eexists. split; [apply Hfast; unfold Qlt; cbn; lia|reflexivity].
Defined.

End GateExtras.

(* ================================================================== *)
(** * More on generateSerialNumbers and createBatches *)
(* ================================================================== *)

Section SerialNumbers.
Import JS Aggregator RunSpec.

Lemma scan_digits_zeros (k cnt : nat) (s : string) :
  scan_digits 0 cnt (zeros k ++ s) = scan_digits 0 (cnt + k) s.
Proof.
  revert cnt. induction k as [|k IH]; intros cnt; cbn [zeros append].
  - now rewrite Nat.add_0_r.
  - cbn [scan_digits]. change (is_digit "0") with true. cbv iota.
    change (0 * 10 + digit_val "0")%N with 0%N.
    rewrite IH. f_equal. lia.
Qed.

(** Reading back the digits of a decimal numeral gives its value. *)
Lemma scan_digits_uint (d : Decimal.uint) :
  forall acc cnt,
    scan_digits acc cnt (NilEmpty.string_of_uint d)
    = (N.of_nat (Nat.of_uint_acc d (N.to_nat acc)),
       (cnt + Decimal.nb_digits d)%nat, "").
Proof.
  induction d as [|d IH|d IH|d IH|d IH|d IH|d IH|d IH|d IH|d IH|d IH];
    intros acc cnt;
    cbn [NilEmpty.string_of_uint scan_digits Nat.of_uint_acc Decimal.nb_digits].
  { rewrite N2Nat.id, Nat.add_0_r. reflexivity. }
  all: match goal with
       | |- context [is_digit ?c] => change (is_digit c) with true
       end; cbv iota; rewrite IH, Nat.tail_mul_spec;
       unfold digit_val; rewrite N2Nat.inj_add, N2Nat.inj_mul, Nat2N.id;
       match goal with
       | |- context [(nat_of_ascii ?c - 48)%nat] =>
           let v := eval vm_compute in (nat_of_ascii c - 48)%nat in
           change (nat_of_ascii c - 48)%nat with v
       end;
       change (N.to_nat 10) with 10%nat;
       do 2 f_equal; [do 2 f_equal; lia|lia].
Qed.

Lemma scan_digits_string_of_nat (i cnt : nat) :
  exists n,
    scan_digits 0 cnt (string_of_nat i) = (N.of_nat i, S n, "").
Proof.
  unfold string_of_nat, NilZero.string_of_uint.
  pose proof (DecimalNat.Unsigned.of_to i) as Hof. unfold Nat.of_uint in Hof.
  destruct (Nat.to_uint i) as [|d|d|d|d|d|d|d|d|d|d] eqn:Hd.
  { cbn in Hof. subst i. exists cnt. reflexivity. }
  all: rewrite scan_digits_uint; change (N.to_nat 0) with 0%nat;
       rewrite Hof; cbn [Decimal.nb_digits];
       eexists; f_equal; f_equal; rewrite Nat.add_succ_r; reflexivity.
Qed.

Lemma decode_serial_of_index (i : nat) :
  decode_serial ("SN-" ++ padStart_zero 3 (string_of_nat i)) = Some i.
Proof.
  unfold decode_serial, padStart_zero. cbn [append].
  rewrite scan_digits_zeros.
  destruct (scan_digits_string_of_nat i (0 + (3 - String.length (string_of_nat i))))
    as [n ->].
  now rewrite Nat2N.id.
Qed.

Lemma serial_length_below_1000 :
  forallb (fun i => (String.length ("SN-" ++ padStart_zero 3 (string_of_nat i))
                     =? 6)%nat)
          (seq 0 1000) = true.
Proof. vm_compute. reflexivity. Qed.

End SerialNumbers.

Section SerialNumbersExtras.
Import JS Aggregator RunSpec.

(** X11. [generateSerialNumbers count] holds [count] serial numbers; the
    one at index [i] is [SN-] followed by the decimal digits of [i],
    padded with zeros to three digits, and reads back as [i]; so all of
    them are different. Below index 1000 each has six characters. *)
Theorem generateSerialNumbers_round_trip (count : nat) :
  List.length (generateSerialNumbers count) = count
  /\ (forall i, (i < count)%nat ->
        nth_error (generateSerialNumbers count) i
        = Some ("SN-" ++ padStart_zero 3 (string_of_nat i))
        /\ decode_serial ("SN-" ++ padStart_zero 3 (string_of_nat i)) = Some i
        /\ ((i < 1000)%nat ->
            String.length ("SN-" ++ padStart_zero 3 (string_of_nat i)) = 6%nat))
  /\ NoDup (generateSerialNumbers count).
Proof.
  unfold generateSerialNumbers. split; [|split].
  - now rewrite length_map, length_seq.
  - intros i Hi. split; [|split].
    + rewrite nth_error_map, nth_error_seq.
      destruct (Nat.ltb_spec i count); [reflexivity|lia].
    + apply decode_serial_of_index.
    + intros Hlt. pose proof serial_length_below_1000 as Hall.
      rewrite forallb_forall in Hall.
      apply Nat.eqb_eq, Hall, in_seq. lia.
  - apply Finite.Injective_map_NoDup; [|apply seq_NoDup].
    intros i j Hij.
    pose proof (decode_serial_of_index i) as Hi.
    rewrite Hij, decode_serial_of_index in Hi. congruence.
Qed.

Lemma generateSerialNumbers_round_trip_witness :
  nth_error (generateSerialNumbers 500) 42 = Some "SN-042"
  /\ decode_serial "SN-042" = Some 42%nat.
Proof.
  destruct (generateSerialNumbers_round_trip 500) as (_ & Hnth & _).
  destruct (Hnth 42%nat ltac:(lia)) as (H1 & H2 & _).
  split; [exact H1|exact H2].
Defined.

End SerialNumbersExtras.

Section CreateBatchesExtras.
Import JS Client Aggregator.

(** X12. The edges of [createBatches]. An empty array gives no batch,
    whatever the batch size (zero and negative sizes included, with any
    fuel at all); a batch size of at least the length of a non-empty
    array gives the array itself as the only batch; a batch size of one
    gives one batch per element. *)
Theorem createBatches_edge_cases (A : Type) (array : list A) (k : Z) :
  (forall fuel, createBatches_fuel (S fuel) (@nil A) k = Some [])
  /\ (array <> [] -> Z.of_nat (List.length array) <= k ->
      createBatches array k = Some [array])
  /\ createBatches array 1 = Some (map (fun x => [x]) array).
Proof.
  split; [|split].
  - intros fuel. reflexivity.
  - intros Hne Hk.
    assert (Hpos : 1 <= Z.of_nat (List.length array))
      by (destruct array; [congruence|cbn [List.length]; lia]).
    assert (Hk1 : 1 <= k) by lia.
    destruct (createBatches_loop_spec k Hk1 array (S (List.length array)) 0 [])
      as (batches & Hrun & Hcat & Hshape & Hcount).
    { cbn [skipn]. lia. }
    cbn [skipn app Z.of_nat] in *. unfold createBatches, createBatches_fuel.
    rewrite Hrun. f_equal.
    assert (Hone : Z.of_nat (List.length batches) = 1).
    { rewrite Hcount. symmetry.
      apply Z.div_unique with (r := Z.of_nat (List.length array) - 1); lia. }
    destruct batches as [|b [|b' rest]]; cbn [List.length] in Hone; try lia.
    cbn [List.concat] in Hcat. rewrite app_nil_r in Hcat. now subst b.
  - destruct (createBatches_loop_spec 1 ltac:(lia) array (S (List.length array)) 0 [])
      as (batches & Hrun & Hcat & Hshape & _).
    { cbn [skipn]. lia. }
    cbn [skipn app Z.of_nat] in *. unfold createBatches, createBatches_fuel.
    rewrite Hrun. f_equal. rewrite <- Hcat.
    assert (Hall : Forall (fun c => List.length c = 1%nat) batches).
    { apply Forall_forall. intros c Hc.
      apply In_nth_error in Hc as [j Hj].
      destruct (full_but_last_nth _ _ Hshape j c Hj) as [Hlen _].
      change (Z.to_nat 1) with 1%nat in Hlen. lia. }
    clear Hrun Hcat Hshape.
    induction Hall as [|c rest Hc _ IH]; [reflexivity|].
    destruct c as [|x [|y c]]; cbn in Hc; try discriminate.
    cbn [List.concat app map]. now rewrite <- IH.
Qed.

Lemma createBatches_edge_cases_witness :
  createBatches ["a"; "b"; "c"] 5 = Some [["a"; "b"; "c"]].
Proof.
  destruct (createBatches_edge_cases string ["a"; "b"; "c"] 5) as (_ & Hone & _).
  apply Hone; [discriminate|cbn; lia].
Defined.

(** X13. Batching feeds the client what it accepts: with a batch size
    between 1 and 10, every batch [createBatches] returns passes the
    size check of [fetchDeviceData], whatever the server and the retry
    budget, and its call starts by sending the request. *)
Theorem createBatches_within_cap (array : list string) (k : Z)
    (net : Network) (retries : nat) (w : World) :
  1 <= k <= 10 ->
  exists batches,
    createBatches array k = Some batches
    /\ forall batch, In batch batches ->
         (1 <= List.length batch <= 10)%nat
         /\ fst (fetchDeviceData net batch retries w) <> Throw ValidationError
         /\ exists more,
              trace (snd (fetchDeviceData net batch retries w))
              = (trace w ++ Request batch :: more)%list.
Proof.
  intros [Hk1 Hk10].
  destruct (createBatches_loop_spec k Hk1 array (S (List.length array)) 0 [])
    as (batches & Hrun & _ & Hshape & _).
  { cbn [skipn]. lia. }
  cbn [app Z.of_nat] in Hrun.
  exists batches. split; [exact Hrun|].
  intros batch Hin. apply In_nth_error in Hin as [j Hj].
  destruct (full_but_last_nth _ _ Hshape j batch Hj) as [Hlen _].
  assert (Hcap : (List.length batch <= 10)%nat) by lia.
  split; [lia|]. apply fetchDeviceData_within_cap, Hcap.
Qed.

Lemma createBatches_within_cap_witness :
  let net := {| transport := fun _ _ => Responded 401 "Unauthorized";
                JSON_parse := fun _ => inr "Unexpected token" |} in
  exists batches,
    createBatches (generateSerialNumbers 25) 10 = Some batches
    /\ forall batch, In batch batches ->
         fst (fetchDeviceData net batch 3 fresh_world) <> Throw ValidationError.
Proof.
  intros net.
  destruct (createBatches_within_cap (generateSerialNumbers 25) 10 net 3
              fresh_world) as (batches & Hrun & Hall); [lia|].
  exists batches. split; [exact Hrun|].
  intros batch Hin. apply (Hall batch Hin).
Defined.

End CreateBatchesExtras.

(* ================================================================== *)
(** * More on aggregateResults *)
(* ================================================================== *)

Section AggregateMore.
Import JS Aggregator.
Import Permutation.

Lemma add_device_unreadable (agg : Aggregated) (device : value) :
  readable device = false ->
  add_device agg device = Throw (cannot_read "undefined" "status")
  \/ add_device agg device = Throw (cannot_read "null" "status").
Proof. destruct device; cbn [readable]; try discriminate; auto. Qed.

(** The inner loop stops at the first record that cannot be read. *)
Lemma forEach_add_device_throws (l : list value) :
  forallb readable l = false ->
  forall agg,
    forEach add_device l agg = Throw (cannot_read "undefined" "status")
    \/ forEach add_device l agg = Throw (cannot_read "null" "status").
Proof.
  induction l as [|d l IH]; cbn [forallb forEach]; intros H agg;
    [discriminate|].
  destruct (readable d) eqn:Hd.
  - destruct (add_device_returns agg d Hd) as [agg1 ->]. cbn [bind].
    apply IH, H.
  - destruct (add_device_unreadable agg d Hd) as [-> | ->]; cbn [bind]; auto.
Qed.

Lemma aggregateResults_returns_iff (allResults : list value) :
  (exists agg, aggregateResults allResults = Ok agg)
  <-> forallb readable (records allResults) = true.
Proof.
  unfold aggregateResults. rewrite forEach_add_response_records. split.
  - intros [agg H].
    destruct (forallb readable (records allResults)) eqn:Hr; [reflexivity|].
    destruct (forEach_add_device_throws _ Hr initial) as [E|E];
      rewrite E in H; discriminate.
  - intros Hr. destruct (forEach_add_device_returns _ Hr initial) as [agg0 ->].
    cbn [bind]. eauto.
Qed.

Lemma records_app (l1 l2 : list value) :
  records (l1 ++ l2)%list = (records l1 ++ records l2)%list.
Proof. apply flat_map_app. Qed.

Lemma Permutation_filter_length {A : Type} (f : A -> bool) (l l' : list A) :
  Permutation l l' ->
  List.length (filter f l) = List.length (filter f l').
Proof.
  induction 1 as [|x l l' _ IH|x y l|l l' l'' _ IH1 _ IH2]; cbn [filter].
  - reflexivity.
  - destruct (f x); cbn [List.length]; now rewrite IH.
  - destruct (f x), (f y); reflexivity.
  - now rewrite IH1.
Qed.

Lemma Permutation_forallb {A : Type} (f : A -> bool) (l l' : list A) :
  Permutation l l' -> forallb f l = forallb f l'.
Proof.
  induction 1 as [|x l l' _ IH|x y l|l l' l'' _ IH1 _ IH2]; cbn [forallb].
  - reflexivity.
  - now rewrite IH.
  - destruct (f x), (f y); reflexivity.
  - now rewrite IH1.
Qed.

End AggregateMore.

Section AggregateMoreExtras.
Import JS Aggregator.
Import Permutation.



(** X15. Reducing two lists one after the other: when both reduce, so
    does their concatenation; its three counters are the sums of the
    counters of the parts, its records are those of the first part
    followed by those of the second, and its power sum goes on from the
    sum of the first part through the numeric readings of the second. *)
Theorem aggregateResults_app (l1 l2 : list value) (a1 a2 : Aggregated) :
  aggregateResults l1 = Ok a1 ->
  aggregateResults l2 = Ok a2 ->
  exists a,
    aggregateResults (l1 ++ l2)%list = Ok a
    /\ totalDevices a = (totalDevices a1 + totalDevices a2)%N
    /\ onlineDevices a = (onlineDevices a1 + onlineDevices a2)%N
    /\ offlineDevices a = (offlineDevices a1 + offlineDevices a2)%N
    /\ devices a = (devices a1 ++ devices a2)%list
    /\ totalPower a
       = fold_left add (map reading (filter numeric (devices a2))) (totalPower a1).
Proof.
  intros H1 H2.
  assert (Hr : forallb readable (records (l1 ++ l2)%list) = true).
  { rewrite records_app, forallb_app.
    apply andb_true_iff. split; apply aggregateResults_returns_iff; eauto. }
  apply aggregateResults_returns_iff in Hr as [a Ha]. exists a.
  destruct (aggregateResults_spec _ _ H1) as (T1 & On1 & Off1 & P1 & D1 & _).
  destruct (aggregateResults_spec _ _ H2) as (T2 & On2 & Off2 & P2 & D2 & _).
  destruct (aggregateResults_spec _ _ Ha) as (T & On & Off & P & D & _).
  cbv zeta in *. rewrite records_app in T, On, Off, P, D.
  rewrite !filter_app, ?length_app, ?map_app, ?fold_left_app in *.
  split; [exact Ha|].
  rewrite T, On, Off, P, D, T1, On1, Off1, P1, D1, T2, On2, Off2, D2.
  repeat split; try lia; reflexivity.
Qed.

Lemma aggregateResults_app_witness :
  let day := Object [("data", Array [Object [("status", Str "Online");
                                               ("power", Str "1.5 kW")]])] in
  let night := Object [("data", Array [Object [("status", Str "Offline");
                                                 ("power", Str "0 kW")]])] in
  exists a,
    aggregateResults [day; night] = Ok a
    /\ totalDevices a = 2%N /\ onlineDevices a = 1%N.
Proof.
  intros day night.
  destruct (aggregateResults [day]) as [a1|e1] eqn:H1;
    [|vm_compute in H1; discriminate].
  destruct (aggregateResults [night]) as [a2|e2] eqn:H2;
    [|vm_compute in H2; discriminate].
  destruct (aggregateResults_app [day] [night] a1 a2 H1 H2)
    as (a & Ha & T & On & _).
  exists a. split; [exact Ha|].
  vm_compute in H1, H2. injection H1 as <-. injection H2 as <-.
  split; [exact T|exact On].
Defined.

(** X16. The three counters do not depend on the order of the
    successful payloads: if a list reduces, so does each of its
    permutations, to the same totalDevices, onlineDevices and
    offlineDevices. *)
Theorem aggregateResults_counts_permutation (l l' : list value) (a : Aggregated) :
  Permutation l l' ->
  aggregateResults l = Ok a ->
  exists a',
    aggregateResults l' = Ok a'
    /\ totalDevices a' = totalDevices a
    /\ onlineDevices a' = onlineDevices a
    /\ offlineDevices a' = offlineDevices a.
Proof.
  intros Hperm Ha.
  assert (Hrec : Permutation (records l) (records l'))
    by (apply Permutation_flat_map, Hperm).
  assert (Hr : forallb readable (records l') = true).
  { rewrite <- (Permutation_forallb readable _ _ Hrec).
    apply aggregateResults_returns_iff. eauto. }
  apply aggregateResults_returns_iff in Hr as [a' Ha']. exists a'.
  destruct (aggregateResults_spec _ _ Ha) as (T & On & Off & _).
  destruct (aggregateResults_spec _ _ Ha') as (T' & On' & Off' & _).
  cbv zeta in *. split; [exact Ha'|].
  rewrite T, On, Off, T', On', Off'.
  rewrite (Permutation_length Hrec).
  rewrite (Permutation_filter_length is_online _ _ Hrec).
  rewrite (Permutation_filter_length (fun d => negb (is_online d)) _ _ Hrec).
  repeat split.
Qed.

Lemma aggregateResults_counts_permutation_witness :
  let day := Object [("data", Array [Object [("status", Str "Online")]])] in
  let night := Object [("data", Array [Object [("status", Str "Offline")];
                                       Object [("status", Str "Offline")]])] in
  exists a',
    aggregateResults [night; day] = Ok a'
    /\ totalDevices a' = 3%N /\ onlineDevices a' = 1%N.
Proof.
  intros day night.
  destruct (aggregateResults [day; night]) as [a|e] eqn:Ha;
    [|vm_compute in Ha; discriminate].
  destruct (aggregateResults_counts_permutation [day; night] [night; day] a
              (perm_swap _ _ _) Ha) as (a' & Ha' & T & On & _).
  exists a'. split; [exact Ha'|].
  rewrite T, On. vm_compute in Ha. injection Ha as <-. split; reflexivity.
Defined.

End AggregateMoreExtras.

(* ================================================================== *)
(** * The power reading: what parseFloat keeps and what it drops *)
(* ================================================================== *)

Section PowerReading.
Import JS Aggregator.

(** The unit that follows a reading: a space, then anything. *)
Variable t : string.

Lemma trim_start_app (s : string) :
  trim_start s <> "" -> trim_start (s ++ String " " t) = trim_start s ++ String " " t.
Proof.
  induction s as [|c s IH]; cbn [trim_start append]; [congruence|].
  destruct (is_space c); [exact IH|reflexivity].
Qed.

Lemma prefix_app (p : string) :
  (forall a, In a (list_ascii_of_string p) -> a <> " "%char) ->
  forall s, prefix p (s ++ String " " t) = prefix p s.
Proof.
  induction p as [|a p IH]; intros Hp s; [destruct s; reflexivity|].
  destruct s as [|b s]; cbn [append prefix].
  - destruct (ascii_dec a " ") as [->|_]; [|reflexivity].
    exfalso. apply (Hp " "%char); [left|]; reflexivity.
  - destruct (ascii_dec a b); [|reflexivity].
    apply IH. intros c Hc. apply Hp. now right.
Qed.

Lemma starts_with_Infinity_app (s : string) :
  starts_with "Infinity" (s ++ String " " t) = starts_with "Infinity" s.
Proof.
  apply prefix_app. cbn. intros a H.
  repeat (destruct H as [<-|H]; [discriminate|]). destruct H.
Qed.

Lemma scan_digits_app (s : string) :
  forall acc cnt,
    scan_digits acc cnt (s ++ String " " t)
    = (fst (fst (scan_digits acc cnt s)), snd (fst (scan_digits acc cnt s)),
       snd (scan_digits acc cnt s) ++ String " " t).
Proof.
  induction s as [|c s IH]; intros acc cnt; [reflexivity|].
  cbn [append scan_digits]. destruct (is_digit c); [apply IH|reflexivity].
Qed.

Lemma scan_exponent_app (s : string) :
  scan_exponent (s ++ String " " t) = scan_exponent s.
Proof.
  destruct s as [|c r]; [reflexivity|]. cbn [append scan_exponent].
  destruct (Ascii.eqb c "e" || Ascii.eqb c "E"); [|reflexivity].
  destruct r as [|c' r']; [reflexivity|].
  assert (Hkeep : forall u,
             (let '(v, n, _) := scan_digits 0 0 (u ++ String " " t) in
              match n with O => 0 | S _ => Z.of_N v end)
             = (let '(v, n, _) := scan_digits 0 0 u in
                match n with O => 0 | S _ => Z.of_N v end)
             /\ (let '(v, n, _) := scan_digits 0 0 (u ++ String " " t) in
                 match n with O => 0 | S _ => - Z.of_N v end)
                = (let '(v, n, _) := scan_digits 0 0 u in
                   match n with O => 0 | S _ => - Z.of_N v end)).
  { intros u. rewrite scan_digits_app.
    destruct (scan_digits 0 0 u) as [[v n] r0]. split; reflexivity. }
  destruct c' as [[] [] [] [] [] [] [] []]; cbn [append];
    first [ apply (Hkeep r') | apply (proj1 (Hkeep (String _ r'))) ].
Qed.

Lemma parse_unsigned_app (neg : bool) (s : string) :
  parse_unsigned neg (s ++ String " " t) = parse_unsigned neg s.
Proof.
  unfold parse_unsigned. rewrite starts_with_Infinity_app.
  destruct (starts_with "Infinity" s); [reflexivity|].
  rewrite scan_digits_app.
  destruct (scan_digits 0 0 s) as [[ip ni] r1]. cbn [fst snd].
  destruct r1 as [|c r]; [reflexivity|].
  destruct c as [[] [] [] [] [] [] [] []]; cbn [append];
    first [ rewrite scan_digits_app;
            destruct (scan_digits ip 0 r) as [[m nf] r2]; cbn [fst snd];
            now rewrite scan_exponent_app
          | now rewrite <- (scan_exponent_app (String _ r)) ].
Qed.

Lemma parse_decimal_app (s : string) :
  parse_decimal (s ++ String " " t) = parse_decimal s.
Proof.
  destruct s as [|c s]; [reflexivity|].
  destruct c as [[] [] [] [] [] [] [] []]; cbn [append parse_decimal];
    first [ apply parse_unsigned_app
          | apply (parse_unsigned_app false (String _ s)) ].
Qed.

Lemma parseFloat_string_app (s : string) :
  isNaN (parseFloat_string s) = false ->
  parseFloat_string (s ++ String " " t) = parseFloat_string s.
Proof.
  unfold parseFloat_string. intros Hnum.
  assert (Hne : trim_start s <> "").
  { intros E. rewrite E in Hnum. discriminate. }
  now rewrite trim_start_app, parse_decimal_app.
Qed.

End PowerReading.

Section PowerReadingExtras.
Import JS Aggregator.

(** X17. Line 59 drops the unit: when a text reads as a number, the same
    text followed by a space and anything at all (a unit such as kW)
    reads as the same number, and a record carrying it has the same
    reading. *)
Theorem parseFloat_ignores_unit (s unit : string) :
  isNaN (parseFloat (Str s)) = false ->
  parseFloat (Str (s ++ String " " unit)) = parseFloat (Str s)
  /\ reading (Object [("power", Str (s ++ String " " unit))])
     = reading (Object [("power", Str s)]).
Proof.
  intros Hnum.
  assert (H : parseFloat (Str (s ++ String " " unit)) = parseFloat (Str s))
    by (apply parseFloat_string_app, Hnum).
  split; [exact H|]. exact H.
Qed.

Lemma parseFloat_ignores_unit_witness :
  parseFloat (Str "2.5 kW") = parseFloat (Str "2.5").
Proof.
  apply (parseFloat_ignores_unit "2.5" "kW"). reflexivity.
Defined.

(** X18. A text that begins (no blank before it) with a character that
    is neither a digit, a sign, a dot nor the letter I does not read as
    a number: a record whose power is such a text is not numeric, so
    line 60 keeps it out of the power sum. *)
Theorem parseFloat_rejects_text (c : ascii) (s : string) :
  is_space c = false -> is_digit c = false ->
  c <> "+"%char -> c <> "-"%char -> c <> "."%char -> c <> "I"%char ->
  parseFloat (Str (String c s)) = NaN
  /\ numeric (Object [("power", Str (String c s))]) = false.
Proof.
  intros Hspace Hdigit Hplus Hminus Hdot HI.
  assert (H : parseFloat (Str (String c s)) = NaN).
  { unfold parseFloat, ToString, parseFloat_string. cbn [trim_start].
    rewrite Hspace.
    destruct c as [[] [] [] [] [] [] [] []];
      try discriminate; try congruence; reflexivity. }
  split; [exact H|].
  unfold numeric.
  change (reading (Object [("power", Str (String c s))]))
    with (parseFloat (Str (String c s))).
  rewrite H. reflexivity.
Qed.

Lemma parseFloat_rejects_text_witness :
  parseFloat (Str "bad") = NaN.
Proof.
  apply (parseFloat_rejects_text "b" "ad"); try reflexivity; discriminate.
Defined.

End PowerReadingExtras.

(* ================================================================== *)
(** * More on the run over all batches *)
(* ================================================================== *)

Section RunFacts.
Import JS Client Policy Aggregator RunSpec.
Import Sorted.
Variable net : Network.

Lemma attempts_no_release (sn : list string) (delays : list Z) :
  filter is_released (attempts sn delays) = [].
Proof. induction delays as [|ms rest IH]; cbn; [reflexivity|exact IH]. Qed.

(** One call of [fetchDeviceData], whatever the batch: between no
    request (a batch over the cap) and [retries + 1] requests, at least
    one for a batch within the cap, and nothing passes the gate. *)
Lemma fetch_effects (sn : list string) (retries : nat) (w : World) :
  (sent w <= sent (snd (fetchDeviceData net sn retries w)) <= sent w + S retries)%nat
  /\ ((List.length sn <= 10)%nat ->
      (sent w < sent (snd (fetchDeviceData net sn retries w)))%nat)
  /\ filter is_released (trace (snd (fetchDeviceData net sn retries w)))
     = filter is_released (trace w).
Proof.
  destruct (Nat.le_gt_cases (List.length sn) 10) as [Hcap|Hover].
  - destruct (fetch_run net sn Hcap retries w) as (k & Hk & _ & _ & Hrun).
    rewrite Hrun. cbn [snd sent trace].
    rewrite filter_app, attempts_no_release, app_nil_r.
    repeat split; lia.
  - rewrite fetchDeviceData_unfold. unfold attempt.
    destruct (Nat.ltb_spec 10 (List.length sn)); [|lia].
    cbn [snd throw]. repeat split; lia.
Qed.

Lemma fetch_ok_parsed (sn : list string) (retries : nat) (w w' : World)
    (parsed : value) :
  fetchDeviceData net sn retries w = (Ok parsed, w') ->
  exists body, JSON_parse net body = inl parsed.
Proof.
  intros Hrun.
  destruct (Nat.le_gt_cases (List.length sn) 10) as [Hcap|Hover].
  - destruct (fetch_run net sn Hcap retries w) as (k & _ & _ & _ & Hrun').
    rewrite Hrun in Hrun'. apply pair_equal_spec in Hrun' as [He _].
    unfold settle, classify in He.
    destruct (transport net (sent w + k) sn) as [c d|m]; [|discriminate].
    destruct (c =? 200).
    + destruct (JSON_parse net d) as [v|m] eqn:Hp; [|discriminate].
      injection He as ->. eauto.
    + destruct (c =? 429); [discriminate|].
      destruct (c =? 401); [discriminate|].
      destruct (500 <=? c); discriminate.
  - rewrite fetchDeviceData_unfold in Hrun. unfold attempt in Hrun.
    destruct (Nat.ltb_spec 10 (List.length sn)); [discriminate|lia].
Qed.

Lemma names_batch_later (b : list string) (rest : list (list string))
    (i : nat) (f : Failure) :
  names_batch rest (S i) f -> names_batch (b :: rest) i f.
Proof.
  unfold names_batch. cbn [List.length]. intros [Hrange Hnth]. split; [lia|].
  replace (batch f - S i)%nat with (S (batch f - S (S i))) by lia.
  exact Hnth.
Qed.

Lemma names_batch_here (b : list string) (rest : list (list string))
    (i : nat) (msg : string) :
  names_batch (b :: rest) i
    {| batch := i + 1; serialNumbers := b; error := msg |}.
Proof.
  unfold names_batch. cbn [batch serialNumbers List.length]. split; [lia|].
  replace (i + 1 - S i)%nat with 0%nat by lia. reflexivity.
Qed.

(** Everything the loop keeps, in one induction over the batches. *)
Lemma process_batches_spec (batches : list (list string)) :
  forall i allResults errors w,
  exists newResults newErrors w',
    process_batches net batches i allResults errors w
    = ((allResults ++ newResults)%list, (errors ++ newErrors)%list, w')
    /\ (List.length newResults <= List.length batches)%nat
    /\ (List.length newErrors <= List.length batches)%nat
    /\ (List.length batches <= List.length newResults + List.length newErrors)%nat
    /\ (payloads_have_data net ->
        (List.length newResults + List.length newErrors)%nat = List.length batches)
    /\ Forall (fun v => exists body, JSON_parse net body = inl v) newResults
    /\ Forall (names_batch batches i) newErrors
    /\ Forall (fun f => (i < batch f)%nat) newErrors
    /\ StronglySorted earlier newErrors
    /\ (sent w <= sent w' <= sent w + 4 * List.length batches)%nat
    /\ (Forall (fun b => (List.length b <= 10)%nat) batches ->
        (sent w + List.length batches <= sent w')%nat)
    /\ List.length (filter is_released (trace w'))
       = (List.length (filter is_released (trace w)) + List.length batches)%nat.
Proof.
  induction batches as [|b rest IH]; intros i allResults errors w.
  - exists [], [], w. cbn [process_batches List.length]. rewrite !app_nil_r.
    repeat split; try constructor; try lia.
  - cbn [process_batches]. unfold rateLimiter_execute, default_retries.
    pose proof (fetch_effects b 3 (emit Released w)) as (Hsent & Hsome & Hrel).
    cbn [emit sent trace] in Hsent, Hsome, Hrel.
    rewrite filter_app in Hrel. cbn [filter is_released] in Hrel.
    destruct (fetchDeviceData net b 3 (emit Released w)) as [[result|e] w1] eqn:Hf;
      cbn [snd] in Hsent, Hsome, Hrel.
    + pose proof (fetch_ok_parsed _ _ _ _ _ Hf) as [body Hbody].
      destruct (received_count result) as [count|e] eqn:Hcount.
      * destruct (IH (S i) (allResults ++ [result])%list errors w1)
          as (nr & ne & w' & Hrun & Hr & He & Hge & Hex & Hp & Hn & Hi & Hs
              & Hb & Hlow & Hg).
        exists (result :: nr), ne, w'. rewrite Hrun, <- app_assoc.
        cbn [app List.length]. rewrite Hg, Hrel, length_app. cbn [List.length].
        repeat split; try lia.
        -- intros Hd. specialize (Hex Hd). lia.
        -- constructor; [eauto|exact Hp].
        -- eapply Forall_impl; [|exact Hn]. apply names_batch_later.
        -- eapply Forall_impl; [|exact Hi]. cbn. intros f Hf'. lia.
        -- exact Hs.
        -- intros Hall. inversion Hall as [|? ? Hb0 Hrest]; subst.
           specialize (Hlow Hrest). specialize (Hsome Hb0). lia.
      * destruct (IH (S i) (allResults ++ [result])%list
                    (errors ++ [{| batch := i + 1; serialNumbers := b;
                                   error := message e |}])%list w1)
          as (nr & ne & w' & Hrun & Hr & He & Hge & Hex & Hp & Hn & Hi & Hs
              & Hb & Hlow & Hg).
        exists (result :: nr),
          ({| batch := i + 1; serialNumbers := b; error := message e |} :: ne), w'.
        rewrite Hrun, <- !app_assoc.
        cbn [app List.length]. rewrite Hg, Hrel, length_app. cbn [List.length].
        repeat split; try lia.
        -- intros Hd. destruct (Hd body result Hbody) as [c Hc]. congruence.
        -- constructor; [eauto|exact Hp].
        -- constructor; [apply names_batch_here|].
           eapply Forall_impl; [|exact Hn]. apply names_batch_later.
        -- constructor; [cbn; lia|].
           eapply Forall_impl; [|exact Hi]. cbn. intros f Hf'. lia.
        -- constructor; [exact Hs|].
           eapply Forall_impl; [|exact Hi]. unfold earlier. cbn. intros f Hf'. lia.
        -- intros Hall. inversion Hall as [|? ? Hb0 Hrest]; subst.
           specialize (Hlow Hrest). specialize (Hsome Hb0). lia.
    + destruct (IH (S i) allResults
                  (errors ++ [{| batch := i + 1; serialNumbers := b;
                                 error := message e |}])%list w1)
        as (nr & ne & w' & Hrun & Hr & He & Hge & Hex & Hp & Hn & Hi & Hs
            & Hb & Hlow & Hg).
      exists nr,
        ({| batch := i + 1; serialNumbers := b; error := message e |} :: ne), w'.
      rewrite Hrun, <- !app_assoc.
      cbn [app List.length]. rewrite Hg, Hrel, length_app. cbn [List.length].
      repeat split; try lia.
      * intros Hd. specialize (Hex Hd). lia.
      * exact Hp.
      * constructor; [apply names_batch_here|].
        eapply Forall_impl; [|exact Hn]. apply names_batch_later.
      * constructor; [cbn; lia|].
        eapply Forall_impl; [|exact Hi]. cbn. intros f Hf'. lia.
      * constructor; [exact Hs|].
        eapply Forall_impl; [|exact Hi]. unfold earlier. cbn. intros f Hf'. lia.
      * intros Hall. inversion Hall as [|? ? Hb0 Hrest]; subst.
        specialize (Hlow Hrest). specialize (Hsome Hb0). lia.
Qed.

Lemma records_readable (allResults : list value) :
  payloads_have_records net ->
  Forall (fun v => exists body, JSON_parse net body = inl v) allResults ->
  forallb readable (records allResults) = true.
Proof.
  intros Hp Hall. induction Hall as [|v rest [body Hv] _ IH]; [reflexivity|].
  cbn [records flat_map]. rewrite forallb_app.
  apply andb_true_iff. split; [exact (Hp body v Hv)|exact IH].
Qed.

End RunFacts.

Section RunExtras.
Import JS Client Policy Aggregator RunSpec.
Import Sorted.

(** X19. Every Failure of a run names a real batch: its number lies
    between 1 and the number of batches, and the serial numbers it
    carries are those of the batch with that number. The Failures come
    in strictly increasing batch number, so no batch has two. *)
Theorem run_failures_name_batches (net : Network) (batches : list (list string))
    (w w' : World) (run : Run) :
  run_batches net batches w = (Ok run, w') ->
  (forall f, In f (errors run) ->
     (1 <= batch f <= List.length batches)%nat
     /\ nth_error batches (batch f - 1) = Some (serialNumbers f))
  /\ StronglySorted (fun f g => (batch f < batch g)%nat) (errors run).
Proof.
  unfold run_batches. intros Hrun.
  destruct (process_batches_spec net batches 0 [] [] w)
    as (nr & ne & w1 & Hp & _ & _ & _ & _ & _ & Hn & _ & Hs & _).
  rewrite Hp in Hrun. cbn [app] in Hrun.
  destruct (aggregateResults nr) as [agg|e]; [|discriminate].
  injection Hrun as <- _. cbn [errors]. split; [|exact Hs].
  intros f Hf. rewrite Forall_forall in Hn.
  destruct (Hn f Hf) as [Hrange Hnth]. split; [lia|exact Hnth].
Qed.

Lemma run_failures_name_batches_witness :
  let net := {| transport := fun n _ =>
                  if Nat.eqb n 1 then Responded 401 "Unauthorized"
                  else Responded 200 "{}";
                JSON_parse := fun _ => inl (Object [("data", Array [])]) |} in
  exists run w',
    run_batches net [["SN-000"]; ["SN-001"]; ["SN-002"]] fresh_world = (Ok run, w')
    /\ forall f, In f (errors run) ->
         nth_error [["SN-000"]; ["SN-001"]; ["SN-002"]] (batch f - 1)
         = Some (serialNumbers f).
Proof.
  intros net.
  destruct (run_batches net [["SN-000"]; ["SN-001"]; ["SN-002"]] fresh_world)
    as [[run|e] w'] eqn:Hrun; [|vm_compute in Hrun; discriminate].
  exists run, w'. split; [reflexivity|].
  intros f Hf.
  apply (run_failures_name_batches net _ _ _ _ Hrun). exact Hf.
Defined.







End RunExtras.
